(** * qhash: a shallow embedding of the hardened Lorenz hasher

    The development follows the Go package [qhash]: [trajectory.go]
    (seed derivation, Lorenz integration, XOR fold), [adaptive.go],
    [salthierarchy.go], the finalisation mixers, [hasher.go] and
    [types.go].

    - Go [int] values are [Z]; every integer the code computes stays far
      below 2^63, so no wrap-around is written out for them.
    - A byte is a [Z] in [0,256); a [[]byte] is a [list Z].
    - [*big.Float] is a location in a store of [Float] cells; methods
      with a receiver write that cell. *)

From Stdlib Require Import ZArith List Lia Bool QArith.
From Stdlib Require Import String Ascii.
From stdpp Require Import base option nmap gmap strings pretty.

Local Open Scope Z_scope.

(** ** math/big.Float *)

(** A finite [big.Float]: precision in bits and the value
    [mant * 2^expo].  The mantissa is not normalised.  Signed zeros and
    infinities are left out: the code never divides by zero, checks every
    coordinate against 1e10 at each step, and reads the sign of a zero
    only through [Sign], which is 0 for both. *)
Record Float : Type := mkFloat { prec : Z; mant : Z; expo : Z }.

Module BigFloat.

Definition zero : Float := mkFloat 0 0 0.

(** Number of bits of [|m|] (0 for 0). *)
Definition bitlen (m : Z) : Z :=
  if m =? 0 then 0 else Z.log2 (Z.abs m) + 1.

(** [m / 2^k] rounded to the nearest integer, ties to even
    ([ToNearestEven], the mode of every Float in the package). *)
Definition rne_shift (m k : Z) : Z :=
  let a := Z.abs m in
  let q := Z.shiftr a k in
  let r := a - Z.shiftl q k in
  let half := Z.shiftl 1 (k - 1) in
  let q' := if (half <? r) || ((r =? half) && Z.odd q) then q + 1 else q in
  Z.sgn m * q'.

(** Round [m * 2^e] so that it lies on the grid of step [2^q]. *)
Definition round_grid (q m e : Z) : Z * Z :=
  if e <? q then (rne_shift m (q - e), q) else (m, e).

(** Round [m * 2^e] to [p] bits of mantissa. *)
Definition round_to (p m e : Z) : Z * Z :=
  if p <=? 0 then (0, 0) else round_grid (bitlen m + e - p) m e.

Definition make (p : Z) (me : Z * Z) : Float :=
  let '(m, e) := round_to p (fst me) (snd me) in mkFloat p m e.

(** Exact sum, difference, product as mantissa and exponent. *)
Definition align (x : Float) (e : Z) : Z := Z.shiftl (mant x) (expo x - e).

Definition add_exact (x y : Float) : Z * Z :=
  let e := Z.min (expo x) (expo y) in (align x e + align y e, e).

Definition sub_exact (x y : Float) : Z * Z :=
  let e := Z.min (expo x) (expo y) in (align x e - align y e, e).

Definition mul_exact (x y : Float) : Z * Z :=
  (mant x * mant y, expo x + expo y).

(** Quotient carried to [p + 2] bits and more, with a sticky last bit,
    so that rounding it to [p] bits rounds the true quotient. *)
Definition quo_sticky (p : Z) (x y : Float) : Z * Z :=
  if (mant x =? 0) || (mant y =? 0) then (0, 0) else
  let k := Z.max 0 (p + 2 + bitlen (mant y) - bitlen (mant x)) in
  let n := Z.shiftl (Z.abs (mant x)) k in
  let d := Z.abs (mant y) in
  let q := n / d in
  let s := if n mod d =? 0 then 0 else 1 in
  (Z.sgn (mant x) * Z.sgn (mant y) * (2 * q + s), expo x - expo y - k - 1).

(** The precision the receiver [z] of a binary operation ends up with:
    its own, or when that is 0 the larger of the operands'. *)
Definition op_prec (z x y : Float) : Z :=
  if prec z =? 0 then Z.max (prec x) (prec y) else prec z.

Definition Add (z x y : Float) : Float := make (op_prec z x y) (add_exact x y).
Definition Sub (z x y : Float) : Float := make (op_prec z x y) (sub_exact x y).
Definition Mul (z x y : Float) : Float := make (op_prec z x y) (mul_exact x y).
Definition Quo (z x y : Float) : Float :=
  let p := op_prec z x y in make p (quo_sticky p x y).

Definition SetPrec (z : Float) (p : Z) : Float := make p (mant z, expo z).

(** [z.SetInt(i)]: a receiver of precision 0 takes
    [max (i.BitLen()) 64]. *)
Definition SetInt (z : Float) (i : Z) : Float :=
  make (if prec z =? 0 then Z.max (bitlen i) 64 else prec z) (i, 0).

(** [z.SetUint64(u)]: a receiver of precision 0 takes 64. *)
Definition SetUint64 (z : Float) (u : Z) : Float :=
  make (if prec z =? 0 then 64 else prec z) (u, 0).

(** [x.Int(nil)]: truncation toward zero. *)
Definition Int (x : Float) : Z :=
  if 0 <=? expo x then Z.shiftl (mant x) (expo x)
  else Z.sgn (mant x) * Z.shiftr (Z.abs (mant x)) (- expo x).

Definition Sign (x : Float) : Z := Z.sgn (mant x).

(** [big.Int.Uint64]: the low 64 bits of the absolute value. *)
Definition Uint64 (i : Z) : Z := Z.abs i mod 2 ^ 64.

End BigFloat.

(** ** float64 values read back from a Float *)

(** A [float64] as far as the package looks at one: a finite dyadic
    [m * 2^e] or an infinity. *)
Inductive float64 : Type :=
| F64 (m e : Z)
| F64Inf (negative : bool).

Module F64.

(** [x.Float64()]: nearest double, ties to even; 53 bits in the normal
    range, the grid [2^-1074] below it, infinity from [2^1024] on. *)
Definition of_Float (x : Float) : float64 :=
  let q := Z.max (BigFloat.bitlen (mant x) + expo x - 53) (-1074) in
  let '(m, e) := BigFloat.round_grid q (mant x) (expo x) in
  if 1024 <? BigFloat.bitlen m + e then F64Inf (m <? 0) else F64 m e.

(** A decimal constant [n / d] of the source text as the nearest
    double, the way the Go compiler converts it. *)
Definition lit (n d : Z) : Float :=
  BigFloat.Quo (mkFloat 53 0 0) (mkFloat 53 n 0) (mkFloat 53 d 0).

Definition const (n d : Z) : float64 := of_Float (lit n d).

(** Comparison of finite values after alignment. *)
Definition cmp (a b : float64) : comparison :=
  match a, b with
  | F64 m1 e1, F64 m2 e2 =>
      let e := Z.min e1 e2 in
      Z.compare (Z.shiftl m1 (e1 - e)) (Z.shiftl m2 (e2 - e))
  | F64Inf n1, F64Inf n2 =>
      match n1, n2 with
      | true, false => Lt | false, true => Gt | _, _ => Eq
      end
  | F64Inf n, F64 _ _ => if n then Lt else Gt
  | F64 _ _, F64Inf n => if n then Gt else Lt
  end.

Definition leb (a b : float64) : bool :=
  match cmp a b with Gt => false | _ => true end.
Definition gtb (a b : float64) : bool :=
  match cmp a b with Gt => true | _ => false end.

Definition IsInf (a : float64) : bool :=
  match a with F64Inf _ => true | _ => false end.

Definition Abs (a : float64) : float64 :=
  match a with F64 m e => F64 (Z.abs m) e | F64Inf _ => F64Inf false end.

End F64.

(** ** crypto/sha256, crypto/sha512 and encoding/base64

    The primitives of the Go standard library the package calls, after
    FIPS 180-4 and RFC 4648. *)

Module SHA2.

Section Core.
(** Word size in bits, round constants, and the six rotation and
    three shift amounts of the big and small sigma functions. *)
Variable w : Z.
Variable K : list Z.
Variables S0a S0b S0c S1a S1b S1c s0a s0b s0c s1a s1b s1c : Z.

Definition trunc (x : Z) : Z := Z.land x (Z.ones w).
Definition add (x y : Z) : Z := trunc (x + y).
Definition rotr (n x : Z) : Z :=
  Z.lor (Z.shiftr x n) (trunc (Z.shiftl x (w - n))).
Definition Ch (x y z : Z) : Z :=
  Z.lxor (Z.land x y) (Z.land (Z.lxor x (Z.ones w)) z).
Definition Maj (x y z : Z) : Z :=
  Z.lxor (Z.lxor (Z.land x y) (Z.land x z)) (Z.land y z).
Definition Sig0 (x : Z) : Z := Z.lxor (Z.lxor (rotr S0a x) (rotr S0b x)) (rotr S0c x).
Definition Sig1 (x : Z) : Z := Z.lxor (Z.lxor (rotr S1a x) (rotr S1b x)) (rotr S1c x).
Definition sig0 (x : Z) : Z := Z.lxor (Z.lxor (rotr s0a x) (rotr s0b x)) (Z.shiftr x s0c).
Definition sig1 (x : Z) : Z := Z.lxor (Z.lxor (rotr s1a x) (rotr s1b x)) (Z.shiftr x s1c).

Definition state : Type := Z * Z * Z * Z * Z * Z * Z * Z.

Definition round (st : state) (k wt : Z) : state :=
  let '(a, b, c, d, e, f, g, h) := st in
  let t1 := add (add (add (add h (Sig1 e)) (Ch e f g)) k) wt in
  let t2 := add (Sig0 a) (Maj a b c) in
  (add t1 t2, a, b, c, add d t1, e, f, g).

(** The sixteen most recent schedule words, oldest first. *)
Definition next_word (win : list Z) : Z :=
  add (add (add (sig1 (nth 14 win 0)) (nth 9 win 0)) (sig0 (nth 1 win 0)))
      (nth 0 win 0).

Fixpoint rounds (ks : list Z) (win : list Z) (st : state) : state :=
  match ks with
  | [] => st
  | k :: ks' =>
      rounds ks' (tl win ++ [next_word win]) (round st k (nth 0 win 0))
  end.

Definition compress (st : state) (block : list Z) : state :=
  let '(a, b, c, d, e, f, g, h) := st in
  let '(a', b', c', d', e', f', g', h') := rounds K block st in
  (add a a', add b b', add c c', add d d', add e e', add f f', add g g', add h h').

(** Big-endian bytes of a word and back. *)
Fixpoint be_bytes (n : nat) (x : Z) : list Z :=
  match n with
  | O => []
  | S n' => Z.land (Z.shiftr x (8 * Z.of_nat n')) 255 :: be_bytes n' x
  end.

Definition be_word (bs : list Z) : Z :=
  fold_left (fun acc b => Z.lor (Z.shiftl acc 8) b) bs 0.

Definition wbytes : nat := Z.to_nat (w / 8).

(** The message cut into words; [fuel] bounds the number of words. *)
Fixpoint words (fuel : nat) (bs : list Z) : list Z :=
  match fuel, bs with
  | S fuel', _ :: _ => be_word (firstn wbytes bs) :: words fuel' (skipn wbytes bs)
  | _, _ => []
  end.

Fixpoint blocks (fuel : nat) (ws : list Z) : list (list Z) :=
  match fuel, ws with
  | S fuel', _ :: _ => firstn 16 ws :: blocks fuel' (skipn 16 ws)
  | _, _ => []
  end.

(** Padding: 0x80, zeros, and the bit length in [2 * wbytes] bytes,
    up to a whole number of blocks. *)
Definition pad (msg : list Z) : list Z :=
  let bl := 16 * (w / 8) in
  let n := Z.of_nat (length msg) in
  let z := (bl - (n + 1 + 2 * (w / 8)) mod bl) mod bl in
  msg ++ [128] ++ repeat 0 (Z.to_nat z)
      ++ be_bytes (2 * wbytes)%nat (8 * n).

Definition digest_state (iv : state) (msg : list Z) : state :=
  let p := pad msg in
  fold_left compress (blocks (length p) (words (length p) p)) iv.

Definition state_bytes (st : state) : list Z :=
  let '(a, b, c, d, e, f, g, h) := st in
  be_bytes wbytes a ++ be_bytes wbytes b ++ be_bytes wbytes c ++ be_bytes wbytes d
    ++ be_bytes wbytes e ++ be_bytes wbytes f ++ be_bytes wbytes g ++ be_bytes wbytes h.

Definition to_state (iv : list Z) : state :=
  (nth 0 iv 0, nth 1 iv 0, nth 2 iv 0, nth 3 iv 0,
   nth 4 iv 0, nth 5 iv 0, nth 6 iv 0, nth 7 iv 0).

Definition digest (iv : list Z) (msg : list Z) : list Z :=
  state_bytes (digest_state (to_state iv) msg).
End Core.

(** The constants of FIPS 180-4: the fractional parts of the cube
    roots (round constants) and of the square roots (initial states) of
    the first primes, cut to the word size. *)
Definition is_prime (p : Z) : bool :=
  forallb (fun k => negb (p mod k =? 0)) (map Z.of_nat (seq 2 (Z.to_nat p - 2))).

Definition primes : list Z :=
  Eval vm_compute in filter (fun p => is_prime p = true) (map Z.of_nat (seq 2 408)).

(** The largest [x + c] with [c < 2^b] and [(x + c)^3 <= n]. *)
Fixpoint cbrt_bits (b : nat) (n x : Z) : Z :=
  match b with
  | O => x
  | S b' =>
      let y := x + 2 ^ Z.of_nat b' in
      cbrt_bits b' n (if y * y * y <=? n then y else x)
  end.

Definition frac_cbrt (bits p : Z) : Z :=
  cbrt_bits (Z.to_nat bits + 3) (p * 2 ^ (3 * bits)) 0 mod 2 ^ bits.

Definition frac_sqrt (bits p : Z) : Z :=
  Z.sqrt (p * 2 ^ (2 * bits)) mod 2 ^ bits.

Definition K256 : list Z := Eval vm_compute in map (frac_cbrt 32) (firstn 64 primes).
Definition K512 : list Z := Eval vm_compute in map (frac_cbrt 64) (firstn 80 primes).
Definition IV256 : list Z := Eval vm_compute in map (frac_sqrt 32) (firstn 8 primes).
Definition IV384 : list Z :=
  Eval vm_compute in map (frac_sqrt 64) (firstn 8 (skipn 8 primes)).
Definition IV512 : list Z := Eval vm_compute in map (frac_sqrt 64) (firstn 8 primes).

Definition core256 := digest 32 K256 2 13 22 6 11 25 7 18 3 17 19 10.
Definition core512 := digest 64 K512 28 34 39 14 18 41 1 8 7 19 61 6.

(** [sha256.Sum256], [sha512.Sum384], [sha512.Sum512]. *)
Definition Sum256 (msg : list Z) : list Z := core256 IV256 msg.
Definition Sum384 (msg : list Z) : list Z := firstn 48 (core512 IV384 msg).
Definition Sum512 (msg : list Z) : list Z := core512 IV512 msg.

End SHA2.

Module Base64.

Definition alphabet : string :=
  "ABCDEFGHIJKLMNOPQRSTUVWXYZabcdefghijklmnopqrstuvwxyz0123456789+/".

Definition char (i : Z) : ascii :=
  match String.get (Z.to_nat i) alphabet with
  | Some c => c
  | None => "="%char
  end.

(** [base64.StdEncoding.EncodeToString]: three bytes to four
    characters, the tail padded with '='. *)
Fixpoint EncodeToString (bs : list Z) : string :=
  match bs with
  | [] => EmptyString
  | [a] =>
      String (char (Z.shiftr a 2))
     (String (char (Z.shiftl (Z.land a 3) 4))
     (String "="%char (String "="%char EmptyString)))
  | [a; b] =>
      String (char (Z.shiftr a 2))
     (String (char (Z.lor (Z.shiftl (Z.land a 3) 4) (Z.shiftr b 4)))
     (String (char (Z.shiftl (Z.land b 15) 2))
     (String "="%char EmptyString)))
  | a :: b :: c :: rest =>
      String (char (Z.shiftr a 2))
     (String (char (Z.lor (Z.shiftl (Z.land a 3) 4) (Z.shiftr b 4)))
     (String (char (Z.lor (Z.shiftl (Z.land b 15) 2) (Z.shiftr c 6)))
     (String (char (Z.land c 63)) (EncodeToString rest))))
  end.

End Base64.

(** ** Errors, results and the store of Floats *)

(** [fmt.Errorf]: the format string is kept, the formatted arguments are
    not; [%w] keeps the wrapped error. *)
Inductive error : Type :=
| Errorf (msg : string)
| Wrapf (msg : string) (cause : error).

Inductive res (A : Type) : Type :=
| Ok (a : A)
| Err (e : error).
Arguments Ok {A} a.
Arguments Err {A} e.

(** A [*big.Float] that is not nil: the number of its cell. *)
Definition loc := N.

(** The cells [new(big.Float)] and [big.NewFloat] have handed out so far
    are those below [next], the cell the next allocation returns. *)
Record heap : Type := mkHeap { cells : Nmap Float; next : N }.

Definition empty_heap : heap := mkHeap ∅ 0%N.

(** Go has no pointer to a cell that was never allocated; for such a
    number reading gives the zero Float and writing does nothing. *)
Definition load (h : heap) (l : loc) : Float :=
  if (l <? next h)%N then default BigFloat.zero (cells h !! l)
  else BigFloat.zero.

Definition store (h : heap) (l : loc) (v : Float) : heap :=
  if (l <? next h)%N then mkHeap (<[l := v]> (cells h)) (next h) else h.

(** Code that allocates and updates Floats and may return an error. *)
Definition M (A : Type) : Type := heap -> heap * res A.

Definition ret {A} (a : A) : M A := fun h => (h, Ok a).
Definition fail {A} (e : error) : M A := fun h => (h, Err e).
Definition bind {A B} (m : M A) (k : A -> M B) : M B :=
  fun h => match m h with
           | (h', Ok a) => k a h'
           | (h', Err e) => (h', Err e)
           end.

Notation "'let*' x ':=' m 'in' k" := (bind m (fun x => k))
  (at level 10, x pattern, m at level 100, k at level 200).

(** [if err != nil { return ..., fmt.Errorf(msg, err) }] around a call. *)
Definition wrap {A} (msg : string) (m : M A) : M A :=
  fun h => match m h with
           | (h', Ok a) => (h', Ok a)
           | (h', Err e) => (h', Err (Wrapf msg e))
           end.

(** Pure code lifted into a [res]. *)
Definition rbind {A B} (r : res A) (k : A -> res B) : res B :=
  match r with Ok a => k a | Err e => Err e end.
Definition rwrap {A} (msg : string) (r : res A) : res A :=
  match r with Ok a => Ok a | Err e => Err (Wrapf msg e) end.
Definition lift {A} (r : res A) : M A := fun h => (h, r).

(** The methods of [*big.Float] the package calls.  Those with a receiver
    [z] update the cell of [z] and return [z]. *)
Module Ptr.

Definition new : M loc :=
  fun h => (mkHeap (<[next h := BigFloat.zero]> (cells h)) (N.succ (next h)),
            Ok (next h)).

Definition get (x : loc) : M Float := fun h => (h, Ok (load h x)).
Definition set (z : loc) (v : Float) : M loc := fun h => (store h z v, Ok z).

Definition binop (f : Float -> Float -> Float -> Float) (z x y : loc) : M loc :=
  fun h => (store h z (f (load h z) (load h x) (load h y)), Ok z).

Definition Add := binop BigFloat.Add.
Definition Sub := binop BigFloat.Sub.
Definition Mul := binop BigFloat.Mul.
Definition Quo := binop BigFloat.Quo.

(** [z.Copy(x)]: value and precision of [x]. *)
Definition Copy (z x : loc) : M loc := fun h => (store h z (load h x), Ok z).
Definition SetPrec (z : loc) (p : Z) : M loc :=
  fun h => (store h z (BigFloat.SetPrec (load h z) p), Ok z).
Definition SetInt (z : loc) (i : Z) : M loc :=
  fun h => (store h z (BigFloat.SetInt (load h z) i), Ok z).
Definition SetUint64 (z : loc) (u : Z) : M loc :=
  fun h => (store h z (BigFloat.SetUint64 (load h z) u), Ok z).

(** [big.NewFloat(c)] for a constant [c = n / d] of the source. *)
Definition NewFloat (n d : Z) : M loc :=
  let* z := new in set z (F64.lit n d).

Definition Int (x : loc) : M Z := fun h => (h, Ok (BigFloat.Int (load h x))).
Definition Sign (x : loc) : M Z := fun h => (h, Ok (BigFloat.Sign (load h x))).
Definition Float64 (x : loc) : M float64 :=
  fun h => (h, Ok (F64.of_Float (load h x))).

End Ptr.

(** ** types.go *)

Definition MinComputeTime_ns : Z := 100 * 1000000.
Definition DefaultMemoryHardness : Z := 512.
Definition MaxIterations : Z := 100000.
Definition MinIterations : Z := 1000.

Definition HashSize := Z.
Definition Size256 : HashSize := 256.
Definition Size384 : HashSize := 384.
Definition Size512 : HashSize := 512.
Definition Size1024 : HashSize := 1024.

(** The four [*big.Float] fields are never nil: stages are built only by
    [NewHardenedLorenzHasher]. *)
Record LorenzStage : Type := mkStage {
  Sigma : loc; Rho : loc; Beta : loc; Dt : loc;
  Iterations : Z;
  StageID : Z;
  Description : string
}.

Record HierarchicalSalt : Type := mkSalt {
  MasterSalt : list Z;
  StageSalts : list (list Z);
  TimestampSalt : list Z;
  MetaSalt : list Z;
  SaltHashSize : Z
}.

Record TrajectoryCheckpoint : Type := mkCheckpoint {
  Stage : Z;
  Iteration : Z;
  CpHash : string;
  CpSize : Z
}.

(** ** trajectory.go: integration and byte extraction *)

(** [z.Op(x, y)] where receiver and arguments are themselves
    expressions: Go evaluates the receiver, then the arguments from left
    to right, then calls the method. *)
Definition call2 (op : loc -> loc -> loc -> M loc) (z x y : M loc) : M loc :=
  let* z' := z in let* x' := x in let* y' := y in op z' x' y'.

Definition ptr (x : loc) : M loc := ret x.

(** The overflow test applied to each coordinate after a step.  A
    [big.Float] never converts to NaN. *)
Definition overflows (f : float64) : bool :=
  F64.IsInf f || F64.gtb (F64.Abs f) (F64.const 10000000000 1).

Definition check_coord (msg : string) (x : loc) : M unit :=
  let* xf := Ptr.Float64 x in
  if overflows xf then fail (Errorf msg) else ret tt.

(** [lorenzStep]: one Euler step, written into [x], [y], [z]; the
    three differences are computed before any coordinate is updated. *)
Definition lorenzStep (x y z sigma rho beta dt : loc) : M unit :=
  let* dx := call2 Ptr.Mul Ptr.new (ptr sigma) (call2 Ptr.Sub Ptr.new (ptr y) (ptr x)) in
  let* dy := call2 Ptr.Sub Ptr.new
               (call2 Ptr.Mul Ptr.new (ptr x) (call2 Ptr.Sub Ptr.new (ptr rho) (ptr z)))
               (ptr y) in
  let* dz := call2 Ptr.Sub Ptr.new
               (call2 Ptr.Mul Ptr.new (ptr x) (ptr y))
               (call2 Ptr.Mul Ptr.new (ptr beta) (ptr z)) in
  let* _ := call2 Ptr.Add (ptr x) (ptr x) (call2 Ptr.Mul Ptr.new (ptr dx) (ptr dt)) in
  let* _ := call2 Ptr.Add (ptr y) (ptr y) (call2 Ptr.Mul Ptr.new (ptr dy) (ptr dt)) in
  let* _ := call2 Ptr.Add (ptr z) (ptr z) (call2 Ptr.Mul Ptr.new (ptr dz) (ptr dt)) in
  let* _ := check_coord "x coordinate overflow: %f" x in
  let* _ := check_coord "y coordinate overflow: %f" y in
  check_coord "z coordinate overflow: %f" z.

(** The common tail of [discretize] and [discretizeWithShift]: the
    fractional part of the copy [c], moved into [0,1], times 256,
    truncated, low byte. *)
Definition frac_byte (c : loc) : M Z :=
  let* intPart := Ptr.Int c in
  let* frac := call2 Ptr.Sub Ptr.new (ptr c)
                 (let* t := Ptr.new in Ptr.SetInt t intPart) in
  let* s := Ptr.Sign frac in
  let* _ := (if s <? 0
             then call2 Ptr.Add (ptr frac) (ptr frac) (Ptr.NewFloat 1 1)
             else ret frac) in
  let* _ := call2 Ptr.Mul (ptr frac) (ptr frac) (Ptr.NewFloat 256 1) in
  let* fracInt := Ptr.Int frac in
  ret (Z.land (BigFloat.Uint64 fracInt) 255).

(** [discretize]: works on a copy of [f] at precision 128. *)
Definition discretize (f : option loc) : M Z :=
  match f with
  | None => fail (Errorf "nil big.Float")
  | Some f =>
      let* c := (let* c := Ptr.new in let* c := Ptr.Copy c f in Ptr.SetPrec c 128) in
      frac_byte c
  end.

(** [discretizeWithShift]: the copy is multiplied by [2^shift] first. *)
Definition discretizeWithShift (f : option loc) (shift : Z) : M Z :=
  match f with
  | None => fail (Errorf "nil big.Float")
  | Some f =>
      let* c := (let* c := Ptr.new in let* c := Ptr.Copy c f in Ptr.SetPrec c 128) in
      let* shiftFactor := (let* t := Ptr.new in Ptr.SetInt t (Z.shiftl 1 shift)) in
      let* _ := Ptr.Mul c c shiftFactor in
      frac_byte c
  end.

(** [b, _ := f(...)]: the error is dropped and [b] is the zero value
    the callee returned with it. *)
Definition drop_err (m : M Z) : M Z :=
  fun h => match m h with
           | (h', Ok b) => (h', Ok b)
           | (h', Err _) => (h', Ok 0)
           end.

(** [s[i]] for an index in range. *)
Definition at_ (s : list Z) (i : Z) : Z := nth (Z.to_nat i) s 0.

(** [for i := range hash { hash[i] = f i hash[i] }]. *)
Definition for_range (f : Z -> Z -> Z) (hash : list Z) : list Z :=
  imap (fun i b => f (Z.of_nat i) b) hash.

Definition len {A} (s : list A) : Z := Z.of_nat (length s).

(** The warm-up loop, [n] steps. *)
Fixpoint warm_up (n : nat) (x y z sigma rho beta dt : loc) : M unit :=
  match n with
  | O => ret tt
  | S n' =>
      let* _ := wrap "warm-up step %d failed: %w" (lorenzStep x y z sigma rho beta dt) in
      warm_up n' x y z sigma rho beta dt
  end.

(** The three bytes one shift level adds to the stream. *)
Definition shifted_bytes (x y z : loc) (shift : Z) : M (list Z) :=
  let* bx := drop_err (discretizeWithShift (Some x) shift) in
  let* by_ := drop_err (discretizeWithShift (Some y) shift) in
  let* bz := drop_err (discretizeWithShift (Some z) shift) in
  ret [bx; by_; bz].

(** The body of the extraction loop: one step, then 3 to 12 bytes
    appended to the stream. *)
Definition extract_step (x y z sigma rho beta dt : loc) (outSize : Z)
    (stream : list Z) : M (list Z) :=
  let* _ := wrap "iteration %d failed: %w" (lorenzStep x y z sigma rho beta dt) in
  let* bx := wrap "x discretization failed: %w" (discretize (Some x)) in
  let* by_ := wrap "y discretization failed: %w" (discretize (Some y)) in
  let* bz := wrap "z discretization failed: %w" (discretize (Some z)) in
  let stream := stream ++ [bx; by_; bz] in
  let* stream := (if 48 <=? outSize
                  then let* b := shifted_bytes x y z 8 in ret (stream ++ b)
                  else ret stream) in
  let* stream := (if 64 <=? outSize
                  then let* b := shifted_bytes x y z 16 in ret (stream ++ b)
                  else ret stream) in
  if 128 <=? outSize
  then let* b := shifted_bytes x y z 24 in ret (stream ++ b)
  else ret stream.

Fixpoint extract (n : nat) (x y z sigma rho beta dt : loc) (outSize : Z)
    (stream : list Z) : M (list Z) :=
  match n with
  | O => ret stream
  | S n' =>
      let* stream := extract_step x y z sigma rho beta dt outSize stream in
      extract n' x y z sigma rho beta dt outSize stream
  end.

(** One mixing round [hash[i] ^= stream[(i*a)%len] ^ stream[(i*b)%len]]. *)
Definition mix_round (stream : list Z) (a b : Z) (hash : list Z) : list Z :=
  for_range (fun i v =>
    Z.lxor v (Z.lxor (at_ stream (Z.rem (i * a) (len stream)))
                     (at_ stream (Z.rem (i * b) (len stream))))) hash.

(** The XOR fold of the stream into [outSize] bytes. *)
Definition xor_fold (stream : list Z) (outSize : Z) : list Z :=
  let hash := repeat 0 (Z.to_nat outSize) in
  let hash := for_range (fun i _ =>
                Z.lxor (at_ stream (Z.rem i (len stream)))
                       (at_ stream (Z.rem (i * 7) (len stream)))) hash in
  let hash := mix_round stream 11 13 hash in
  let hash := if 48 <=? outSize then mix_round stream 17 19 hash else hash in
  let hash := if 64 <=? outSize then mix_round stream 23 29 hash else hash in
  let hash := if 128 <=? outSize then mix_round stream 31 37 hash else hash in
  hash.

(** A parameter read as a double lies in [(0, hi]]. *)
Definition in_range (v hi : float64) : bool :=
  negb (F64.leb v (F64 0 0) || F64.gtb v hi).

Definition check_param (msg : string) (p : loc) (hi : float64) : M unit :=
  let* v := Ptr.Float64 p in
  if in_range v hi then ret tt else fail (Errorf msg).

(** [TrajectoryToHashBig].  The seeds are copied into fresh Floats, the
    warm-up and the extraction loop step those copies, and the stream is
    folded.  [streamMultiplier] only sizes the capacity of [stream] and
    has no counterpart here. *)
Definition TrajectoryToHashBig (x0 y0 z0 sigma rho beta dt : option loc)
    (iterations discard outSize : Z) : M (list Z) :=
  match x0, y0, z0, sigma, rho, beta, dt with
  | Some x0, Some y0, Some z0, Some sigma, Some rho, Some beta, Some dt =>
      if (iterations <? MinIterations) || (MaxIterations <? iterations)
      then fail (Errorf "iterations out of safe range: %d") else
      if (outSize <=? 0) || (128 <? outSize)
      then fail (Errorf "invalid output size: %d") else
      let* _ := check_param "sigma parameter out of range: %f" sigma (F64.const 100 1) in
      let* _ := check_param "rho parameter out of range: %f" rho (F64.const 100 1) in
      let* _ := check_param "beta parameter out of range: %f" beta (F64.const 100 1) in
      let* _ := check_param "dt parameter out of range: %f" dt (F64.const 1 10) in
      let* x := (let* c := Ptr.new in let* c := Ptr.Copy c x0 in Ptr.SetPrec c 128) in
      let* y := (let* c := Ptr.new in let* c := Ptr.Copy c y0 in Ptr.SetPrec c 128) in
      let* z := (let* c := Ptr.new in let* c := Ptr.Copy c z0 in Ptr.SetPrec c 128) in
      let* _ := warm_up (Z.to_nat discard) x y z sigma rho beta dt in
      let* stream := extract (Z.to_nat iterations) x y z sigma rho beta dt outSize [] in
      if len stream =? 0 then fail (Errorf "empty stream generated") else
      ret (xor_fold stream outSize)
  | _, _, _, _, _, _, _ => fail (Errorf "nil parameters")
  end.

(** [seedBig]: three seeds in [[-20, 20)] from [sha256(data || salt)]. *)
Definition seed_mk (h : list Z) (denom : loc) (off : Z) : M loc :=
  if len h <? off + 8 then fail (Errorf "insufficient hash bytes") else
  let u := SHA2.be_word (firstn 8 (skipn (Z.to_nat off) h)) in
  let* f := (let* f := Ptr.new in let* f := Ptr.SetUint64 f u in Ptr.SetPrec f 128) in
  let* _ := Ptr.Quo f f denom in
  let* _ := call2 Ptr.Mul (ptr f) (ptr f) (Ptr.NewFloat 40 1) in
  call2 Ptr.Sub (ptr f) (ptr f) (Ptr.NewFloat 20 1).

Definition seedBig (data salt : list Z) : M (loc * loc * loc) :=
  if (len data =? 0) || (len salt =? 0) then fail (Errorf "empty input data") else
  let combined := data ++ salt in
  let h := SHA2.Sum256 combined in
  let* denom := (let* d := Ptr.new in Ptr.SetInt d (Z.shiftl 1 64)) in
  let* _ := Ptr.SetPrec denom 128 in
  let* x := seed_mk h denom 0 in
  let* y := seed_mk h denom 8 in
  let* z := seed_mk h denom 16 in
  ret (x, y, z).

(** ** adaptive.go *)

(** A value of the [map[string]interface{}] of parameters: a [float64],
    kept as a Float of 53 bits, or an [int]. *)
Inductive param : Type :=
| PFloat (f : Float)
| PInt (i : Z).

(** [float64] arithmetic, each operation rounded to nearest even at 53
    bits.  The values of [deriveAdaptiveParameters] stay in the normal
    range of a double, where this is IEEE 754 arithmetic. *)
Module Double.
Definition of_byte (b : Z) : Float := mkFloat 53 b 0.
Definition add (x y : Float) : Float := BigFloat.Add (mkFloat 53 0 0) x y.
Definition sub (x y : Float) : Float := BigFloat.Sub (mkFloat 53 0 0) x y.
Definition mul (x y : Float) : Float := BigFloat.Mul (mkFloat 53 0 0) x y.
Definition div (x y : Float) : Float := BigFloat.Quo (mkFloat 53 0 0) x y.
End Double.

Definition deriveAdaptiveParameters (data salt : list Z) : gmap string param :=
  let combined := data ++ salt in
  let h := SHA2.Sum256 combined in
  let unit_of i := Double.div (Double.of_byte (at_ h i)) (F64.lit 255 1) in
  let params : gmap string param := ∅ in
  let params := <["iteration_multiplier" :=
      PFloat (Double.add (F64.lit 8 10) (Double.mul (unit_of 0) (F64.lit 4 10)))]> params in
  let params := <["dt_scale" :=
      PFloat (Double.add (F64.lit 9 10) (Double.mul (unit_of 1) (F64.lit 2 10)))]> params in
  let params := <["memory_multiplier" :=
      PFloat (Double.add (F64.lit 1 1) (Double.mul (unit_of 2) (F64.lit 1 1)))]> params in
  let params := <["sigma_perturbation" :=
      PFloat (Double.mul (Double.sub (unit_of 3) (F64.lit 5 10)) (F64.lit 1 1))]> params in
  let params := <["rho_perturbation" :=
      PFloat (Double.mul (Double.sub (unit_of 4) (F64.lit 5 10)) (F64.lit 2 1))]> params in
  let params := <["beta_perturbation" :=
      PFloat (Double.mul (Double.sub (unit_of 5) (F64.lit 5 10)) (F64.lit 5 10))]> params in
  let params := <["quantum_resistance_level" :=
      PInt (Z.rem (at_ h 6) 4 + 1)]> params in
  params.

(** [deriveSaltLR]: [size] chained SHA-256 digests, the first byte of
    each; [None] is the nil slice. *)
Fixpoint salt_chain (n : nat) (buf : list Z) : list Z :=
  match n with
  | O => []
  | S n' => let h := SHA2.Sum256 buf in at_ h 0 :: salt_chain n' h
  end.

Definition deriveSaltLR (seed : list Z) (size : Z) : option (list Z) :=
  if (size <=? 0) || (1024 <? size) then None
  else Some (salt_chain (Z.to_nat size) seed).

(** ** salthierarchy.go *)

(** What a call reads from outside the program: the bytes [rand.Read]
    delivers, the Unix time, the monotonic clock and
    [runtime.MemStats.Alloc].  The clock is given by its reading when
    [compute] is entered and by how far it moves, in nanoseconds, while
    the program runs: during the stage loop and the finalisation
    ([work_ns]), during a [time.Sleep] beyond the duration asked for
    ([oversleep_ns]) and between the end of the wait and the last
    reading ([tail_ns]). *)
Record Env : Type := mkEnv {
  entropy : list Z;
  unix_now : Z;
  clock_ns : Z;
  work_ns : Z;
  oversleep_ns : Z;
  tail_ns : Z;
  mem_alloc : Z
}.

(** [time.Since(start)] when the clock reads [now]. *)
Definition time_Since (now start : Z) : Z := now - start.

(** [time.Sleep(d)] started when the clock reads [now]: the reading when
    it returns.  A duration that is zero or negative returns at once. *)
Definition time_Sleep (env : Env) (d now : Z) : Z :=
  if d <=? 0 then now else now + d + oversleep_ns env.

(** [rand.Read(b)] on a buffer of [n] bytes. *)
Definition rand_Read (env : Env) (n : Z) : res (list Z) :=
  if len (entropy env) <? n then Err (Errorf "unexpected EOF")
  else Ok (firstn (Z.to_nat n) (entropy env)).

Fixpoint stage_salts (master : list Z) (size : Z) (n : nat) (i : Z)
    : res (list (list Z)) :=
  match n with
  | O => Ok []
  | S n' =>
      let seed := master ++ [i mod 256] in
      match deriveSaltLR seed size with
      | None => Err (Errorf "stage %d salt generation failed")
      | Some salt =>
          rbind (stage_salts master size n' (i + 1)) (fun rest => Ok (salt :: rest))
      end
  end.

Definition GenerateSaltHierarchy (env : Env) (numStages hashSize : Z)
    : res HierarchicalSalt :=
  if (numStages <=? 0) || (10 <? numStages)
  then Err (Errorf "invalid number of stages") else
  let masterSize := 32 + Z.quot (hashSize - 256) 256 * 16 in
  let masterSize := if 80 <? masterSize then 80 else masterSize in
  rbind (rwrap "master salt generation failed: %w" (rand_Read env masterSize))
  (fun master =>
  let stageSaltSize := 16 + Z.quot (hashSize - 256) 256 * 8 in
  let stageSaltSize := if 48 <? stageSaltSize then 48 else stageSaltSize in
  rbind (stage_salts master stageSaltSize (Z.to_nat numStages) 0)
  (fun stageSalts =>
  let hr := Z.quot (unix_now env) 3600 in
  let tb := SHA2.be_bytes 8 (hr mod 2 ^ 64) in
  let timestampSize := 12 + Z.quot (hashSize - 256) 256 * 4 in
  let timestampSize := if 28 <? timestampSize then 28 else timestampSize in
  match deriveSaltLR tb timestampSize with
  | None => Err (Errorf "timestamp salt generation failed")
  | Some ts =>
      let metaSeed := master ++ ts ++ concat stageSalts in
      let metaSize := 24 + Z.quot (hashSize - 256) 256 * 8 in
      let metaSize := if 56 <? metaSize then 56 else metaSize in
      match deriveSaltLR metaSeed metaSize with
      | None => Err (Errorf "meta salt generation failed")
      | Some meta =>
          Ok (mkSalt master stageSalts ts meta hashSize)
      end
  end)).

(** ** The finalisation mixers *)

Definition lorenzMix (data salt : list Z) : res (list Z) :=
  if (len data =? 0) || (len salt =? 0) then Err (Errorf "empty input") else
  let out := repeat 0 (length data) in
  let combined := data ++ salt in
  let h := SHA2.Sum256 combined in
  Ok (for_range (fun i _ => Z.lxor (at_ data i) (at_ h (Z.rem i (len h)))) out).

Definition hyperchaosMix (data salt : list Z) : res (list Z) :=
  if (len data =? 0) || (len salt =? 0) then Err (Errorf "empty input") else
  let out := repeat 0 (length data) in
  let key := SHA2.Sum256 salt in
  Ok (for_range (fun i _ =>
        let val := at_ data i in
        let val := Z.lxor val (at_ key (Z.rem (i * 7) (len key))) in
        let val := Z.lxor val (at_ key (Z.rem (i * 13) (len key))) in
        let val := Z.rem (val + at_ key (Z.rem (i * 17) (len key))) 256 in
        val) out).

(** The inner loop of [latticeMix]: [sum += data[j] * h[(i+j) % len(h)]]
    for [j] from [j0] on. *)
Fixpoint lattice_sum (h : list Z) (i j0 : Z) (data : list Z) (sum : Z) : Z :=
  match data with
  | [] => sum
  | d :: rest =>
      lattice_sum h i (j0 + 1) rest (sum + d * at_ h (Z.rem (i + j0) (len h)))
  end.

Definition latticeMix (data salt : list Z) : res (list Z) :=
  if (len data =? 0) || (len salt =? 0) then Err (Errorf "empty input") else
  let out := repeat 0 (length data) in
  let h := SHA2.Sum256 salt in
  Ok (for_range (fun i _ =>
        let sum := lattice_sum h i 0 data 0 in
        let noise := at_ h (Z.rem (i * 3) (len h)) in
        Z.rem (sum + noise) 256) out).

(** The digest a width selects: SHA-256, SHA-384, SHA-512, or SHA-512
    followed by SHA-512 of it; nil for any other width. *)
Definition sized_sum (hashSize : HashSize) (b : list Z) : list Z :=
  if hashSize =? Size256 then SHA2.Sum256 b
  else if hashSize =? Size384 then SHA2.Sum384 b
  else if hashSize =? Size512 then SHA2.Sum512 b
  else if hashSize =? Size1024
       then let h1 := SHA2.Sum512 b in h1 ++ SHA2.Sum512 h1
  else [].

(** [for len(final) < outputSize { final = append(final, sha256(final)...) }];
    every turn adds 32 bytes, so [fuel = outputSize] turns are enough. *)
Fixpoint expand (fuel : nat) (final : list Z) (outputSize : Z) : list Z :=
  match fuel with
  | O => final
  | S fuel' =>
      if len final <? outputSize
      then expand fuel' (final ++ SHA2.Sum256 final) outputSize
      else final
  end.

Definition quantumFinalize (data : list Z) (salt : option HierarchicalSalt)
    (hashSize : HashSize) : res (list Z) :=
  match salt with
  | None => Err (Errorf "invalid input")
  | Some salt =>
      if len data =? 0 then Err (Errorf "invalid input") else
      let combined := data ++ MasterSalt salt in
      let r1 := sized_sum hashSize combined in
      rbind (rwrap "lorenz mix failed: %w" (lorenzMix r1 (MetaSalt salt))) (fun r2 =>
      rbind (rwrap "hyperchaos mix failed: %w" (hyperchaosMix r2 (TimestampSalt salt))) (fun r3 =>
      rbind (rwrap "lattice mix failed: %w" (latticeMix r3 (MasterSalt salt))) (fun r4 =>
      let outputSize := Z.quot hashSize 8 in
      let final := sized_sum hashSize r4 in
      let final :=
        if outputSize <? len final then firstn (Z.to_nat outputSize) final
        else if len final <? outputSize
             then firstn (Z.to_nat outputSize)
                         (expand (Z.to_nat outputSize) final outputSize)
        else final in
      Ok final)))
  end.

(** ** hasher.go *)

Record HardenedSaltedHash : Type := mkResult {
  Hash : list Z;
  Salt : option HierarchicalSalt;
  Checkpoints : list TrajectoryCheckpoint;
  ComputeTime : Z;
  MemoryUsed : Z;
  Parameters : gmap string param;
  Algorithm : string;
  Version : string;
  ResHashSize : Z
}.

Record HardenedLorenzHasher : Type := mkHasher {
  stages : gmap Z (list LorenzStage);
  memoryHardness : Z;
  minComputeTime : Z;
  hashSize : HashSize
}.

(** [h.stages[h.hashSize]]: the nil slice for a missing key. *)
Definition stages_of (h : HardenedLorenzHasher) : list LorenzStage :=
  default [] (stages h !! hashSize h).

(** [f := func(v float64) *big.Float { return big.NewFloat(v).SetPrec(128) }]
    on the constant [n / d]. *)
Definition f_ (v : Z * Z) : M loc :=
  let* z := Ptr.NewFloat (fst v) (snd v) in Ptr.SetPrec z 128.

(** One [LorenzStage] literal; its fields are evaluated in order. *)
Definition stage_lit (sigma rho beta dt : Z * Z) (iterations id : Z)
    (desc : string) : M LorenzStage :=
  let* s := f_ sigma in
  let* r := f_ rho in
  let* b := f_ beta in
  let* d := f_ dt in
  ret (mkStage s r b d iterations id desc).

Fixpoint sequence {A} (ms : list (M A)) : M (list A) :=
  match ms with
  | [] => ret []
  | m :: ms' => let* a := m in let* rest := sequence ms' in ret (a :: rest)
  end.

Definition classic tag := stage_lit (10, 1) (28, 1) (8, 3) (1, 100) 2000 1 ("Classic-" +:+ tag).
Definition energetic tag := stage_lit (16, 1) (456, 10) (4, 1) (8, 1000) 3000 2 ("Energetic-" +:+ tag).
Definition wide tag := stage_lit (125, 10) (352, 10) (25, 10) (12, 1000) 2500 3 ("Wide-" +:+ tag).
Definition compact tag := stage_lit (85, 10) (248, 10) (62, 10) (15, 1000) 1800 4 ("Compact-" +:+ tag).

Definition stageConfigs : M (gmap Z (list LorenzStage)) :=
  let* s256 := sequence [classic "256"; energetic "256"] in
  let* s384 := sequence [classic "384"; energetic "384"; wide "384"] in
  let* s512 := sequence [classic "512"; energetic "512"; wide "512"; compact "512"] in
  let* s1024 := sequence
      [classic "1024"; energetic "1024"; wide "1024"; compact "1024";
       stage_lit (142, 10) (321, 10) (38, 10) (9, 1000) 3200 5 "Extended-1-1024";
       stage_lit (117, 10) (413, 10) (51, 10) (11, 1000) 2800 6 "Extended-2-1024";
       stage_lit (93, 10) (267, 10) (74, 10) (13, 1000) 2200 7 "Extended-3-1024";
       stage_lit (138, 10) (389, 10) (29, 10) (7, 1000) 3500 8 "Extended-4-1024"] in
  ret (<[Size1024 := s1024]> (<[Size512 := s512]> (<[Size384 := s384]>
        (<[Size256 := s256]> ∅)))).

Definition validate_stage (stage : LorenzStage) : M unit :=
  if (Iterations stage <? MinIterations) || (MaxIterations <? Iterations stage)
  then fail (Errorf "stage %d iterations out of safe range") else
  let* _ := check_param "stage %d sigma parameter invalid" (Sigma stage) (F64.const 100 1) in
  let* _ := check_param "stage %d rho parameter invalid" (Rho stage) (F64.const 100 1) in
  let* _ := check_param "stage %d beta parameter invalid" (Beta stage) (F64.const 100 1) in
  check_param "stage %d dt parameter invalid" (Dt stage) (F64.const 1 10).

Fixpoint validate_stages (sts : list LorenzStage) : M unit :=
  match sts with
  | [] => ret tt
  | st :: rest => let* _ := validate_stage st in validate_stages rest
  end.

Definition NewHardenedLorenzHasher (hashSize : Z) : M HardenedLorenzHasher :=
  let size : HashSize := hashSize in
  if negb (size =? Size256) && negb (size =? Size384)
     && negb (size =? Size512) && negb (size =? Size1024)
  then fail (Errorf "unsupported hash size: %d. Supported: 256, 384, 512, 1024") else
  let* stageConfigs := stageConfigs in
  let stages := default [] (stageConfigs !! size) in
  let* _ := validate_stages stages in
  let stageMap : gmap Z (list LorenzStage) := <[size := stages]> ∅ in
  ret (mkHasher stageMap DefaultMemoryHardness MinComputeTime_ns size).

Definition GetHashSize (h : HardenedLorenzHasher) : Z := hashSize h.

(** The stage loop of [compute]: the stages left, the index of the
    first of them, the checkpoints so far and the running buffer. *)
Fixpoint run_stages (h : HardenedLorenzHasher) (salt : HierarchicalSalt)
    (sts : list LorenzStage) (idx : Z)
    (checkpoints : list TrajectoryCheckpoint) (buf : list Z)
    : M (list TrajectoryCheckpoint * list Z) :=
  match sts with
  | [] => ret (checkpoints, buf)
  | st :: rest =>
      if len (StageSalts salt) <=? idx
      then fail (Errorf "insufficient stage salts") else
      let buf := buf ++ nth (Z.to_nat idx) (StageSalts salt) [] in
      let* (x0, y0, z0) := wrap "seed generation failed: %w"
                              (seedBig buf (MasterSalt salt)) in
      let iterations := Iterations st in
      let discard := 1000 + Z.quot (hashSize h) 4 in
      let outputSize := Z.quot (hashSize h) 8 in
      let* bytesOut := wrap "trajectory computation failed: %w"
          (TrajectoryToHashBig (Some x0) (Some y0) (Some z0)
             (Some (Sigma st)) (Some (Rho st)) (Some (Beta st)) (Some (Dt st))
             iterations discard outputSize) in
      let sum := sized_sum (hashSize h) bytesOut in
      let checkpoints := checkpoints ++
        [mkCheckpoint idx (Iterations st) (Base64.EncodeToString sum) (hashSize h)] in
      run_stages h salt rest (idx + 1) checkpoints bytesOut
  end.

(** [compute].  [start] is the clock at entry; [now] is the clock where
    the code reads it: after the stage loop and the finalisation
    ([time.Since(start)] of the wait), after the wait, and in the
    [ComputeTime] of the result.  The returns inside the stage loop and
    after a failed finalisation come before the wait. *)
Definition compute (h : HardenedLorenzHasher) (env : Env) (data : list Z)
    (salt : HierarchicalSalt) (params : gmap string param)
    : M HardenedSaltedHash :=
  let start := clock_ns env in
  let checkpoints : list TrajectoryCheckpoint := [] in
  let buf := data in
  let stages := stages_of h in
  let* (checkpoints, buf) := run_stages h salt stages 0 checkpoints buf in
  let* finalHash := lift (rwrap "quantum finalization failed: %w"
                            (quantumFinalize buf (Some salt) (hashSize h))) in
  let now := start + work_ns env in
  let dt := time_Since now start in
  let now := if dt <? minComputeTime h
             then time_Sleep env (minComputeTime h - dt) now else now in
  let now := now + tail_ns env in
  ret (mkResult finalHash (Some salt) checkpoints
         (time_Since now start) (Z.quot (mem_alloc env) 1024) params
         ("QHASH-" +:+ pretty (hashSize h)) "2.0" (hashSize h)).

(** The time [compute] has taken when it returns, by the clock of [env]:
    an early return (insufficient stage salts, a failed seed, trajectory
    or finalisation) comes straight after the work done so far, the
    last return after the reading that fills [ComputeTime]. *)
Definition compute_elapsed (h : HardenedLorenzHasher) (env : Env) (data : list Z)
    (salt : HierarchicalSalt) (params : gmap string param) (hp : heap) : Z :=
  match (compute h env data salt params hp).2 with
  | Ok r => ComputeTime r
  | Err _ => work_ns env
  end.

Definition generateSalt (h : HardenedLorenzHasher) (env : Env) : res HierarchicalSalt :=
  GenerateSaltHierarchy env (len (stages_of h)) (hashSize h).

Definition HashWithHardening (h : HardenedLorenzHasher) (env : Env)
    (data : list Z) : M HardenedSaltedHash :=
  if len data =? 0 then fail (Errorf "empty data not allowed") else
  let* salt := lift (rwrap "salt generation failed: %w" (generateSalt h env)) in
  let params := deriveAdaptiveParameters data (MasterSalt salt) in
  compute h env data salt params.

Definition Hash_ (h : HardenedLorenzHasher) (env : Env) (data : list Z) : M (list Z) :=
  let* result := HashWithHardening h env data in
  ret (Hash result).

(** [bytes.Equal]. *)
Definition bytes_Equal (a b : list Z) : bool := bool_decide (a = b).

(** [for i, cp := range recomputed { if cp.Hash != stored[i].Hash { return false } }]
    on two lists of the same length. *)
Fixpoint checkpoints_agree (recomputed stored : list TrajectoryCheckpoint) : bool :=
  match recomputed, stored with
  | cp :: rest, st :: rest' =>
      if bool_decide (CpHash cp = CpHash st) then checkpoints_agree rest rest'
      else false
  | _, _ => true
  end.

Definition VerifyHardenedHash (h : HardenedLorenzHasher) (env : Env)
    (data : list Z) (stored : option HardenedSaltedHash) : M bool :=
  match stored with
  | None => fail (Errorf "invalid stored hash")
  | Some stored =>
      match Salt stored with
      | None => fail (Errorf "invalid stored hash")
      | Some salt =>
          if negb (ResHashSize stored =? hashSize h)
          then fail (Errorf "hash size mismatch: expected %d, got %d") else
          let params := deriveAdaptiveParameters data (MasterSalt salt) in
          let* recomputed := wrap "recomputation failed: %w"
                               (compute h env data salt params) in
          if negb (bytes_Equal (Hash recomputed) (Hash stored)) then ret false else
          if negb (length (Checkpoints recomputed) =? length (Checkpoints stored))%nat
          then ret false else
          if checkpoints_agree (Checkpoints recomputed) (Checkpoints stored)
          then ret true else ret false
      end
  end.

(** The package's functions are unfolded by name only. *)
#[global] Arguments TrajectoryToHashBig : simpl never.
#[global] Arguments seedBig : simpl never.
#[global] Arguments lorenzStep : simpl never.
#[global] Arguments discretize : simpl never.
#[global] Arguments discretizeWithShift : simpl never.
#[global] Arguments quantumFinalize : simpl never.
#[global] Arguments sized_sum : simpl never.
#[global] Arguments xor_fold : simpl never.
#[global] Arguments SHA2.Sum256 : simpl never.
#[global] Arguments SHA2.Sum384 : simpl never.
#[global] Arguments SHA2.Sum512 : simpl never.
#[global] Arguments Base64.EncodeToString : simpl never.
#[global] Arguments deriveAdaptiveParameters : simpl never.
#[global] Arguments F64.const : simpl never.
#[global] Arguments F64.lit : simpl never.

(** * Vocabulary of the statements *)

(** ** Frame *)

(** [h'] has at least the cells of [h], and those below [n] hold what
    they held in [h]. *)
Definition preserved_below (n : N) (h h' : heap) : Prop :=
  (next h <= next h')%N /\ forall l, (l < n)%N -> load h' l = load h l.

(** Run from a store that has the cells below [n], [m] leaves them as
    they are, and a result it returns satisfies [Q]. *)
Definition frame_below (n : N) {A} (Q : A -> Prop) (m : M A) : Prop :=
  forall h, (n <= next h)%N ->
    preserved_below n h (fst (m h)) /\ forall a, snd (m h) = Ok a -> Q a.

Definition fresh_from (n : N) (l : loc) : Prop := (n <= l)%N.

(** ** Two runs from stores that differ by a shift *)

(** A cell of the first run and the cell that plays its part in the
    second: the cells below [n] are shared, the later ones lie [d]
    further on. *)
Definition shift (n d : N) (l : loc) : loc :=
  if (l <? n)%N then l else (l + d)%N.

Definition rloc_on (n d : N) (l1 l2 : loc) : Prop := l2 = shift n d l1.

Definition ropt_on (n d : N) (o1 o2 : option loc) : Prop :=
  match o1, o2 with
  | Some l1, Some l2 => rloc_on n d l1 l2
  | None, None => True
  | _, _ => False
  end.

Definition rloc3_on (n d : N) (a b : loc * loc * loc) : Prop :=
  rloc_on n d a.1.1 b.1.1 /\ rloc_on n d a.1.2 b.1.2 /\ rloc_on n d a.2 b.2.

(** Corresponding cells hold the same Float. *)
Definition hrel (n d : N) (h1 h2 : heap) : Prop :=
  (n <= next h1)%N /\ next h2 = (next h1 + d)%N /\
  forall l, load h1 l = load h2 (shift n d l).

Inductive rres {A} (R : A -> A -> Prop) : res A -> res A -> Prop :=
| rres_Ok a b : R a b -> rres R (Ok a) (Ok b)
| rres_Err e : rres R (Err e) (Err e).

(** From corresponding stores the two computations reach corresponding
    stores, with the same error or with results related by [R]. *)
Definition sim_on (n d : N) {A} (R : A -> A -> Prop) (m1 m2 : M A) : Prop :=
  forall h1 h2, hrel n d h1 h2 ->
    hrel n d (fst (m1 h1)) (fst (m2 h2)) /\ rres R (snd (m1 h1)) (snd (m2 h2)).

(** ** The hasher and the store *)



(** The four parameters of a stage are cells below [b]. *)
Definition stage_below (b : N) (st : LorenzStage) : Prop :=
  (Sigma st < b)%N /\ (Rho st < b)%N /\ (Beta st < b)%N /\ (Dt st < b)%N.

Definition hasher_below (b : N) (hs : HardenedLorenzHasher) : Prop :=
  Forall (stage_below b) (stages_of hs).

(** What [compute] works out before it fills in the result record: the
    checkpoints and the final digest. *)
Definition compute_core (h : HardenedLorenzHasher) (data : list Z)
    (salt : HierarchicalSalt) : M (list TrajectoryCheckpoint * list Z) :=
  let* (checkpoints, buf) := run_stages h salt (stages_of h) 0 [] data in
  let* finalHash := lift (rwrap "quantum finalization failed: %w"
                            (quantumFinalize buf (Some salt) (hashSize h))) in
  ret (checkpoints, finalHash).

(** What [compute] reports as [ComputeTime]: the work, the wait that
    fills it up to [minComputeTime] when it was shorter, and the time up
    to the last reading of the clock. *)
Definition compute_time (h : HardenedLorenzHasher) (env : Env) : Z :=
  let start := clock_ns env in
  let now := start + work_ns env in
  let dt := time_Since now start in
  let now := if dt <? minComputeTime h
             then time_Sleep env (minComputeTime h - dt) now else now in
  let now := now + tail_ns env in
  time_Since now start.

(** The record [compute] returns for given checkpoints and digest. *)
Definition result_of (h : HardenedLorenzHasher) (env : Env)
    (salt : HierarchicalSalt) (params : gmap string param)
    (core : list TrajectoryCheckpoint * list Z) : HardenedSaltedHash :=
  mkResult (snd core) (Some salt) (fst core)
    (compute_time h env) (Z.quot (mem_alloc env) 1024) params
    ("QHASH-" +:+ pretty (hashSize h)) "2.0" (hashSize h).

Definition map_res {A B} (f : A -> B) (r : res A) : res B :=
  match r with Ok a => Ok (f a) | Err e => Err e end.

(** ** A sample run: width 256, input "hello" *)

Definition hello : list Z := [104; 101; 108; 108; 111].

(** The outside world of the sample: [rand.Read] delivers the bytes
    0, 1, ..., 31 and the Unix time is 1700000000; the work of [compute]
    takes 20 ms, a sleep lasts 50 microseconds too long and the last
    reading of the clock comes 10 microseconds after the wait. *)
Definition env0 : Env :=
  mkEnv (map Z.of_nat (seq 0 32)) 1700000000 5000000000 20000000 50000 10000 4096000.

Definition heap256 : heap :=
  Eval vm_compute in (NewHardenedLorenzHasher 256 empty_heap).1.

Definition hasher256 : HardenedLorenzHasher :=
  Eval vm_compute in
    match (NewHardenedLorenzHasher 256 empty_heap).2 with
    | Ok hs => hs
    | Err _ => mkHasher ∅ 0 0 0
    end.

(** The salt hierarchy [GenerateSaltHierarchy] builds in [env0]. *)
Definition salt0 : HierarchicalSalt :=
  mkSalt
    [0; 1; 2; 3; 4; 5; 6; 7; 8; 9; 10; 11; 12; 13; 14; 15;
     16; 17; 18; 19; 20; 21; 22; 23; 24; 25; 26; 27; 28; 29; 30; 31]
    [[27; 200; 80; 85; 144; 28; 69; 125; 42; 17; 207; 192; 209; 134; 31; 103];
     [139; 157; 115; 106; 218; 217; 69; 159; 16; 95; 203; 22; 15; 248; 134; 209]]
    [184; 181; 33; 84; 246; 219; 47; 230; 92; 116; 83; 87]
    [217; 127; 67; 98; 43; 130; 86; 169; 40; 226; 211; 248;
     247; 250; 180; 22; 29; 119; 55; 181; 221; 169; 87; 177]
    256.

Definition params0 : gmap string param :=
  deriveAdaptiveParameters hello (MasterSalt salt0).

Definition sample_checkpoints : list TrajectoryCheckpoint :=
  [mkCheckpoint 0 2000 "upBGPTpz4B0WVFj7CtRdMSjTBKuwyUx0rc/TfLQApyw=" 256;
   mkCheckpoint 1 3000 "Xut4sq6la2PHjHFcPc7RLn+u7fF20Fh2FrY0XiWIo3Q=" 256].

Definition sample_digest : list Z :=
  [183; 208; 224; 210; 19; 210; 78; 220; 249; 182; 72; 193; 135; 189; 178; 142;
   243; 158; 130; 27; 41; 251; 121; 200; 245; 232; 182; 69; 1; 205; 97; 227].

Definition sample_result : HardenedSaltedHash :=
  result_of hasher256 env0 salt0 params0 (sample_checkpoints, sample_digest).

(** ** Verification *)

(** What [VerifyHardenedHash] compares once it has recomputed: the final
    hash, the number of checkpoints, and the digest string of each
    checkpoint. *)
Definition verdict (recomputed stored : HardenedSaltedHash) : bool :=
  bytes_Equal (Hash recomputed) (Hash stored)
  && (length (Checkpoints recomputed) =? length (Checkpoints stored))%nat
  && checkpoints_agree (Checkpoints recomputed) (Checkpoints stored).

(** The stored sample with the stage index and the iteration count of
    its checkpoints overwritten. *)
Definition tampered_checkpoints : list TrajectoryCheckpoint :=
  [mkCheckpoint 7 1 "upBGPTpz4B0WVFj7CtRdMSjTBKuwyUx0rc/TfLQApyw=" 256;
   mkCheckpoint 9 5 "Xut4sq6la2PHjHFcPc7RLn+u7fF20Fh2FrY0XiWIo3Q=" 256].

Definition tampered_result : HardenedSaltedHash :=
  result_of hasher256 env0 salt0 params0 (tampered_checkpoints, sample_digest).

(** The stored sample with the first byte of its final hash changed. *)
Definition forged_result : HardenedSaltedHash :=
  result_of hasher256 env0 salt0 params0
    (sample_checkpoints, 0 :: tl sample_digest).

(** What [VerifyHardenedHash] reads of a stored result: the salt, the
    width, the final hash and, of each checkpoint, the digest string. *)
Definition compared (st : HardenedSaltedHash)
    : option HierarchicalSalt * Z * list Z * list string :=
  (Salt st, ResHashSize st, Hash st, map CpHash (Checkpoints st)).

(** ** A run that fails: width 384, input "hello2" *)

Definition hello2 : list Z := [104; 101; 108; 108; 111; 50].

Definition heap384 : heap :=
  Eval vm_compute in (NewHardenedLorenzHasher 384 empty_heap).1.

Definition hasher384 : HardenedLorenzHasher :=
  Eval vm_compute in
    match (NewHardenedLorenzHasher 384 empty_heap).2 with
    | Ok hs => hs
    | Err _ => mkHasher ∅ 0 0 0
    end.

(** The salt hierarchy [GenerateSaltHierarchy] builds in [env0] for the
    three stages of width 384. *)
Definition salt384 : HierarchicalSalt :=
  Eval vm_compute in
    match generateSalt hasher384 env0 with
    | Ok salt => salt
    | Err _ => mkSalt [] [] [] [] 0
    end.

Definition params384 : gmap string param :=
  deriveAdaptiveParameters hello2 (MasterSalt salt384).

(** The error of a stage whose warm-up left the range [lorenzStep]
    accepts. *)
Definition warm_up_overflow : error :=
  Wrapf "trajectory computation failed: %w"
    (Wrapf "warm-up step %d failed: %w" (Errorf "y coordinate overflow: %f")).

(** ** The byte formulas of the claims *)

Definition is_byte (b : Z) : Prop := 0 <= b < 256.


(** Round 3 of the finalisation as the specification words it: the input
    byte XORed with the key bytes at strides 7, 13 and 17, then a key
    byte at stride 17 added modulo 256. *)
Definition hyperchaos_as_specified (key : list Z) (i : nat) (b : Z) : Z :=
  let k a := nth (Z.to_nat ((Z.of_nat i * a) mod len key)) key 0 in
  (Z.lxor (Z.lxor (Z.lxor b (k 7)) (k 13)) (k 17) + k 17) mod 256.

(** Byte [i] of the fold of [stream] into [outSize] bytes, round by
    round as the specification lists them. *)
Definition fold_byte (stream : list Z) (outSize : Z) (i : nat) : Z :=
  let s k := nth (Z.to_nat (k mod len stream)) stream 0 in
  let j := Z.of_nat i in
  let r1 := Z.lxor (s j) (s (j * 7)) in
  let r2 := Z.lxor r1 (Z.lxor (s (j * 11)) (s (j * 13))) in
  let r3 := if 48 <=? outSize then Z.lxor r2 (Z.lxor (s (j * 17)) (s (j * 19))) else r2 in
  let r4 := if 64 <=? outSize then Z.lxor r3 (Z.lxor (s (j * 23)) (s (j * 29))) else r3 in
  let r5 := if 128 <=? outSize then Z.lxor r4 (Z.lxor (s (j * 31)) (s (j * 37))) else r4 in
  r5.

(** The run of [TrajectoryToHashBig] used as an example of the fold. *)
Definition sample_block : list Z :=
  [0; 22; 236; 203; 14; 118; 146; 87; 109; 229; 85; 21; 162; 225; 48;
   90; 88; 53; 241; 149; 138; 12; 46; 37; 123; 178; 78; 33; 99; 211;
   231; 57; 14; 132; 63; 223; 11; 121; 192; 21; 166; 156; 237; 189;
   33; 191; 147; 131].

(** ** Seeds *)

(** The value of a Float as a rational. *)
Definition Fval (x : Float) : Q :=
  if 0 <=? expo x then inject_Z (mant x * 2 ^ expo x)
  else Qmake (mant x) (Z.to_pos (2 ^ (- expo x))).

(** The Float [mk] of [seedBig] builds from the 64-bit integer [u] and
    the Float [denom]. *)
Definition seed_value (u : Z) (denom : Float) : Float :=
  let f := BigFloat.SetPrec (BigFloat.SetUint64 BigFloat.zero u) 128 in
  let f := BigFloat.Quo f f denom in
  let f := BigFloat.Mul f f (F64.lit 40 1) in
  BigFloat.Sub f f (F64.lit 20 1).

(** [denom] of [seedBig]: 2^64 at precision 128. *)
Definition seed_denom : Float :=
  BigFloat.SetPrec (BigFloat.SetInt BigFloat.zero (Z.shiftl 1 64)) 128.

(** The 64-bit integer [binary.BigEndian.Uint64(h[off : off+8])]. *)
Definition seed_word (h : list Z) (off : Z) : Z :=
  SHA2.be_word (firstn 8 (skipn (Z.to_nat off) h)).

(** [m] succeeds from [h], and the store and result it leaves satisfy
    [P]. *)
Definition runs {A} (m : M A) (h : heap) (P : heap -> A -> Prop) : Prop :=
  exists h' a, m h = (h', Ok a) /\ P h' a.

(** [h'] is [h] with the cell [z] set to [v]. *)
Definition updated (h : heap) (z : loc) (v : Float) (h' : heap) : Prop :=
  next h' = next h /\ load h' z = v /\ forall l, l <> z -> load h' l = load h l.

(** [h'] is [h] with one more cell, holding the zero Float. *)
Definition extended (h h' : heap) : Prop :=
  next h' = N.succ (next h) /\ load h' (next h) = BigFloat.zero /\
  forall l, l <> next h -> load h' l = load h l.

(** [x] is exactly [a * 2^c], its mantissa being [a] shifted left. *)
Definition dyadic_form (x : Float) (a c : Z) : Prop :=
  exists j, 0 <= j /\ mant x = a * 2 ^ j /\ expo x = c - j.

(** The seed [v] derived from the 64-bit integer [u]: precision 128,
    value [u / 2^64 * 40 - 20], which lies in [[-20, 20)]. *)
Definition seed_of (u : Z) (v : Float) : Prop :=
  0 <= u < 2 ^ 64 /\ prec v = 128 /\
  (Fval v == inject_Z u / inject_Z (2 ^ 64) * 40 - 20)%Q /\
  (-20 <= Fval v)%Q /\ (Fval v < 20)%Q.



(** * Properties *)

(** ** The store *)

Lemma load_store h z v l :
  load (store h z v) l = if (l =? z)%N && (z <? next h)%N then v else load h l.
Proof.
  unfold load, store.
  destruct (z <? next h)%N eqn:Hz; simpl.
  - destruct (l =? z)%N eqn:Hl; simpl.
    + apply N.eqb_eq in Hl. subst l. rewrite Hz. by rewrite lookup_insert_eq.
    + apply N.eqb_neq in Hl.
      destruct (l <? next h)%N; [|done]. by rewrite lookup_insert_ne.
  - by rewrite andb_false_r.
Qed.

Lemma next_store h z v : next (store h z v) = next h.
Proof. unfold store. by destruct (z <? next h)%N. Qed.

Lemma load_new h l :
  load (fst (Ptr.new h)) l = if (l =? next h)%N then BigFloat.zero else load h l.
Proof.
  unfold load, Ptr.new. simpl.
  destruct (l =? next h)%N eqn:Hl.
  - apply N.eqb_eq in Hl. subst l.
    replace (next h <? N.succ (next h))%N with true by (symmetry; apply N.ltb_lt; lia).
    by rewrite lookup_insert_eq.
  - apply N.eqb_neq in Hl.
    destruct (l <? next h)%N eqn:H1.
    + replace (l <? N.succ (next h))%N with true
        by (symmetry; apply N.ltb_lt; apply N.ltb_lt in H1; lia).
      by rewrite lookup_insert_ne.
    + replace (l <? N.succ (next h))%N with false; [done|].
      symmetry. apply N.ltb_ge. apply N.ltb_ge in H1. lia.
Qed.

Lemma load_fresh h l : (next h <= l)%N -> load h l = BigFloat.zero.
Proof.
  intros H. unfold load.
  replace (l <? next h)%N with false; [done|].
  symmetry. apply N.ltb_ge. lia.
Qed.

(** Inversion of a successful [bind]. *)
Lemma bind_Ok {A B} (m : M A) (k : A -> M B) h h' b :
  bind m k h = (h', Ok b) ->
  exists h1 a, m h = (h1, Ok a) /\ k a h1 = (h', Ok b).
Proof.
  unfold bind. destruct (m h) as [h1 [a|e]]; [eauto|discriminate].
Qed.

Lemma wrap_Ok {A} msg (m : M A) h h' a :
  wrap msg m h = (h', Ok a) -> m h = (h', Ok a).
Proof.
  unfold wrap. destruct (m h) as [h1 [a'|e]]; [done|discriminate].
Qed.

(** ** Frame: which cells a computation leaves alone *)

Section Frame.
(** The cells below [n] are the ones to be left alone. *)
Variable n : N.

Local Abbreviation preserved := (preserved_below n).
Local Abbreviation frame := (frame_below n).
Local Abbreviation fresh := (fresh_from n).

Lemma preserved_refl h : preserved h h.
Proof. split; [lia|done]. Qed.

Lemma preserved_trans h1 h2 h3 :
  preserved h1 h2 -> preserved h2 h3 -> preserved h1 h3.
Proof.
  intros [H1 H2] [H3 H4]. split; [lia|].
  intros l Hl. rewrite H4, H2; done.
Qed.

Lemma frame_ret {A} (a : A) : frame (fun r => r = a) (ret a).
Proof. intros h Hn. split; [apply preserved_refl|]. simpl. congruence. Qed.

Lemma frame_fail {A} (Q : A -> Prop) e : frame Q (fail e).
Proof. intros h Hn. split; [apply preserved_refl|]. simpl. discriminate. Qed.

Lemma frame_lift {A} (r : res A) : frame (fun _ => True) (lift r).
Proof. intros h Hn. split; [apply preserved_refl|done]. Qed.

Lemma frame_weaken {A} (Q R : A -> Prop) m :
  frame Q m -> (forall a, Q a -> R a) -> frame R m.
Proof. intros H HQ h Hn. destruct (H h Hn) as [H1 H2]. split; eauto. Qed.

Lemma frame_bind {A B} (Q : A -> Prop) (R : B -> Prop) m k :
  frame Q m -> (forall a, Q a -> frame R (k a)) -> frame R (bind m k).
Proof.
  intros Hm Hk h Hn. destruct (Hm h Hn) as [Hp HQ].
  unfold bind. destruct (m h) as [h1 [a|e]]; simpl in *.
  - assert (Hn1 : (n <= next h1)%N) by (destruct Hp; lia).
    destruct (Hk a (HQ a eq_refl) h1 Hn1) as [Hp' HR].
    split; [eapply preserved_trans; eauto|done].
  - split; [done|discriminate].
Qed.

Lemma frame_wrap {A} (Q : A -> Prop) msg m : frame Q m -> frame Q (wrap msg m).
Proof.
  intros Hm h Hn. destruct (Hm h Hn) as [Hp HQ].
  unfold wrap. destruct (m h) as [h1 [a|e]]; simpl in *; [done|].
  split; [done|discriminate].
Qed.

Lemma frame_drop_err (Q : Z -> Prop) m :
  frame Q m -> frame (fun _ => True) (drop_err m).
Proof.
  intros Hm h Hn. destruct (Hm h Hn) as [Hp HQ].
  unfold drop_err. destruct (m h) as [h1 [a|e]]; simpl in *; done.
Qed.

Lemma frame_new : frame fresh Ptr.new.
Proof.
  intros h Hn. split.
  - split; [simpl; lia|]. intros l Hl. rewrite load_new.
    destruct (l =? next h)%N eqn:E; [|done]. apply N.eqb_eq in E. lia.
  - simpl. intros a [= <-]. done.
Qed.

Lemma preserved_store h z v : fresh z -> preserved h (store h z v).
Proof.
  intros Hz. split; [rewrite next_store; lia|].
  intros l Hl. rewrite load_store.
  destruct (l =? z)%N eqn:E; [|done]. apply N.eqb_eq in E. unfold fresh_from in Hz. lia.
Qed.

Lemma frame_set z v : fresh z -> frame (fun r => r = z) (Ptr.set z v).
Proof.
  intros Hz h Hn. split; [by apply preserved_store|]. simpl. congruence.
Qed.

Lemma frame_binop f z x y : fresh z -> frame (fun r => r = z) (Ptr.binop f z x y).
Proof.
  intros Hz h Hn. split; [by apply preserved_store|]. simpl. congruence.
Qed.

Lemma frame_Copy z x : fresh z -> frame (fun r => r = z) (Ptr.Copy z x).
Proof.
  intros Hz h Hn. split; [by apply preserved_store|]. simpl. congruence.
Qed.

Lemma frame_SetPrec z p : fresh z -> frame (fun r => r = z) (Ptr.SetPrec z p).
Proof.
  intros Hz h Hn. split; [by apply preserved_store|]. simpl. congruence.
Qed.

Lemma frame_SetInt z i : fresh z -> frame (fun r => r = z) (Ptr.SetInt z i).
Proof.
  intros Hz h Hn. split; [by apply preserved_store|]. simpl. congruence.
Qed.

Lemma frame_SetUint64 z u : fresh z -> frame (fun r => r = z) (Ptr.SetUint64 z u).
Proof.
  intros Hz h Hn. split; [by apply preserved_store|]. simpl. congruence.
Qed.

Lemma frame_Int x : frame (fun _ => True) (Ptr.Int x).
Proof. intros h Hn. split; [apply preserved_refl|done]. Qed.

Lemma frame_Sign x : frame (fun _ => True) (Ptr.Sign x).
Proof. intros h Hn. split; [apply preserved_refl|done]. Qed.

Lemma frame_Float64 x : frame (fun _ => True) (Ptr.Float64 x).
Proof. intros h Hn. split; [apply preserved_refl|done]. Qed.

Lemma frame_ptr x : frame (fun r => r = x) (ptr x).
Proof. apply frame_ret. Qed.

Lemma frame_call2 f (Qz Qx Qy : loc -> Prop) mz mx my :
  frame Qz mz -> frame Qx mx -> frame Qy my ->
  (forall z, Qz z -> fresh z) ->
  frame fresh (call2 (Ptr.binop f) mz mx my).
Proof.
  intros Hz Hx Hy Hf. unfold call2.
  eapply frame_bind; [exact Hz|]. intros z Qz'.
  eapply frame_bind; [exact Hx|]. intros x _.
  eapply frame_bind; [exact Hy|]. intros y _.
  eapply frame_weaken; [apply frame_binop; auto|].
  intros a ->. auto.
Qed.

Lemma frame_NewFloat a b : frame fresh (Ptr.NewFloat a b).
Proof.
  unfold Ptr.NewFloat. eapply frame_bind; [apply frame_new|].
  intros z Hz. eapply frame_weaken; [by apply frame_set|]. by intros ? ->.
Qed.

End Frame.

Create HintDb frame.
#[global] Hint Resolve frame_ret frame_fail frame_lift frame_new frame_set
  frame_binop frame_Copy frame_SetPrec frame_SetInt frame_SetUint64
  frame_Int frame_Sign frame_Float64 frame_ptr frame_NewFloat
  frame_drop_err : frame.
#[global] Hint Extern 1 (fresh_from _ _) => assumption : frame.

(** Closes what is left of a postcondition, choosing it when it is
    still open. *)
Ltac frame_post :=
  intros; cbv beta in *; subst;
  first [ solve [auto with frame]
        | match goal with
          | H : fresh_from _ ?x |- ?Q ?x => is_evar Q; exact H
          end
        | match goal with
          | |- ?Q ?a =>
              is_evar Q; let T := type of a in unify Q (fun _ : T => True); exact I
          end ].

(** Walks down a computation, one rule of the logic per construct. *)
Ltac frame_tac :=
  lazymatch goal with
  | |- frame_below _ _ (bind _ _) =>
      eapply frame_bind; [frame_tac | intros ? ?; cbv beta in *; subst; frame_tac]
  | |- frame_below _ _ (call2 _ _ _ _) =>
      first [ eapply frame_call2; [frame_tac | frame_tac | frame_tac | frame_post]
            | eapply frame_weaken;
                [eapply frame_call2; [frame_tac | frame_tac | frame_tac | frame_post]
                | frame_post] ]
  | |- frame_below _ _ (wrap _ _) => apply frame_wrap; frame_tac
  | |- frame_below _ _ (if ?c then _ else _) => destruct c; frame_tac
  | |- _ =>
      first [ solve [eauto with frame]
            | eapply frame_weaken; [solve [eauto with frame] | frame_post] ]
  end.

Section FrameOfThePackage.
Variable n : N.
Local Abbreviation frame := (frame_below n).
Local Abbreviation fresh := (fresh_from n).

Lemma frame_check_coord msg x : frame (fun _ => True) (check_coord msg x).
Proof. unfold check_coord. frame_tac. Qed.

Lemma frame_check_param msg p hi : frame (fun _ => True) (check_param msg p hi).
Proof. unfold check_param. frame_tac. Qed.

Hint Resolve frame_check_coord frame_check_param : frame.

Lemma frame_lorenzStep x y z sigma rho beta dt :
  fresh x -> fresh y -> fresh z ->
  frame (fun _ => True) (lorenzStep x y z sigma rho beta dt).
Proof. intros Hx Hy Hz. unfold lorenzStep. frame_tac. Qed.

Lemma frame_frac_byte c : fresh c -> frame (fun _ => True) (frac_byte c).
Proof. intros Hc. unfold frac_byte. frame_tac. Qed.

Hint Resolve frame_lorenzStep frame_frac_byte : frame.

Lemma frame_discretize f : frame (fun _ => True) (discretize f).
Proof. unfold discretize. destruct f; frame_tac. Qed.

Lemma frame_discretizeWithShift f shift :
  frame (fun _ => True) (discretizeWithShift f shift).
Proof. unfold discretizeWithShift. destruct f; frame_tac. Qed.

Hint Resolve frame_discretize frame_discretizeWithShift : frame.

Lemma frame_shifted_bytes x y z shift :
  frame (fun _ => True) (shifted_bytes x y z shift).
Proof. unfold shifted_bytes. frame_tac. Qed.

Hint Resolve frame_shifted_bytes : frame.

Lemma frame_warm_up k x y z sigma rho beta dt :
  fresh x -> fresh y -> fresh z ->
  frame (fun _ => True) (warm_up k x y z sigma rho beta dt).
Proof. intros Hx Hy Hz. induction k; simpl; frame_tac. Qed.

Lemma frame_extract_step x y z sigma rho beta dt outSize stream :
  fresh x -> fresh y -> fresh z ->
  frame (fun _ => True) (extract_step x y z sigma rho beta dt outSize stream).
Proof. intros Hx Hy Hz. unfold extract_step. frame_tac. Qed.

Hint Resolve frame_warm_up frame_extract_step : frame.

Lemma frame_extract k x y z sigma rho beta dt outSize stream :
  fresh x -> fresh y -> fresh z ->
  frame (fun _ => True) (extract k x y z sigma rho beta dt outSize stream).
Proof.
  intros Hx Hy Hz. revert stream. induction k; intros stream; simpl; frame_tac.
Qed.

Hint Resolve frame_extract : frame.

Lemma frame_TrajectoryToHashBig x0 y0 z0 sigma rho beta dt iterations discard outSize :
  frame (fun _ => True)
    (TrajectoryToHashBig x0 y0 z0 sigma rho beta dt iterations discard outSize).
Proof.
  unfold TrajectoryToHashBig.
  destruct x0, y0, z0, sigma, rho, beta, dt; frame_tac.
Qed.

Lemma frame_seed_mk h denom off : frame fresh (seed_mk h denom off).
Proof. unfold seed_mk. frame_tac. Qed.

Hint Resolve frame_TrajectoryToHashBig frame_seed_mk : frame.

Lemma frame_seedBig data salt : frame (fun _ => True) (seedBig data salt).
Proof. unfold seedBig. frame_tac. Qed.

Hint Resolve frame_seedBig : frame.

Lemma frame_run_stages hs salt sts idx cps buf :
  frame (fun _ => True) (run_stages hs salt sts idx cps buf).
Proof.
  revert idx cps buf. induction sts as [|st rest IH]; intros idx cps buf; simpl.
  - frame_tac.
  - destruct (len (StageSalts salt) <=? idx); [frame_tac|].
    eapply frame_bind; [frame_tac|]. intros [[x0 y0] z0] _.
    eapply frame_bind; [frame_tac|]. intros bytesOut _. apply IH.
Qed.

Hint Resolve frame_run_stages : frame.

Lemma frame_compute hs env data salt params :
  frame (fun _ => True) (compute hs env data salt params).
Proof.
  unfold compute.
  eapply frame_bind; [frame_tac|]. intros [cps buf] _. frame_tac.
Qed.

End FrameOfThePackage.

(** ** Simulation: a run does not depend on where its cells lie *)

Section Sim.
Variables n d : N.
Local Abbreviation sim := (sim_on n d).
Local Abbreviation rloc := (rloc_on n d).
Local Abbreviation sh := (shift n d).

Lemma shift_inj l1 l2 : sh l1 = sh l2 -> l1 = l2.
Proof.
  unfold shift. destruct (l1 <? n)%N eqn:E1, (l2 <? n)%N eqn:E2;
    try apply N.ltb_lt in E1; try apply N.ltb_lt in E2;
    try apply N.ltb_ge in E1; try apply N.ltb_ge in E2; lia.
Qed.

Lemma shift_lt b l : (n <= b)%N -> (sh l <? b + d)%N = (l <? b)%N.
Proof.
  intros Hb. unfold shift. destruct (l <? n)%N eqn:E1.
  - apply N.ltb_lt in E1.
    transitivity true; [apply N.ltb_lt; lia | symmetry; apply N.ltb_lt; lia].
  - apply N.ltb_ge in E1. destruct (l <? b)%N eqn:E2.
    + apply N.ltb_lt in E2. apply N.ltb_lt. lia.
    + apply N.ltb_ge in E2. apply N.ltb_ge. lia.
Qed.

Lemma shift_eqb l z : (sh l =? sh z)%N = (l =? z)%N.
Proof.
  destruct (l =? z)%N eqn:E.
  - apply N.eqb_eq in E. subst. apply N.eqb_refl.
  - apply N.eqb_neq in E. apply N.eqb_neq. intros H. apply E, shift_inj, H.
Qed.

Lemma hrel_store h1 h2 z1 z2 v :
  hrel n d h1 h2 -> rloc z1 z2 -> hrel n d (store h1 z1 v) (store h2 z2 v).
Proof.
  intros (Hn & Hd & Hl) ->. repeat split; rewrite ?next_store; auto.
  intros l. rewrite !load_store, Hd, shift_eqb, shift_lt by done.
  destruct ((l =? z1)%N && (z1 <? next h1)%N); auto.
Qed.

Lemma hrel_load h1 h2 x1 x2 :
  hrel n d h1 h2 -> rloc x1 x2 -> load h1 x1 = load h2 x2.
Proof. intros (_ & _ & Hl) ->. apply Hl. Qed.

Lemma sim_ret {A} (a b : A) : sim (fun x y => x = a /\ y = b) (ret a) (ret b).
Proof. intros h1 h2 H. split; [done|]. by constructor. Qed.

Lemma sim_fail {A} (R : A -> A -> Prop) e : sim R (fail e) (fail e).
Proof. intros h1 h2 H. split; [done|]. constructor. Qed.

Lemma sim_lift {A} (r : res A) : sim eq (lift r) (lift r).
Proof. intros h1 h2 H. split; [done|]. simpl. destruct r; by constructor. Qed.

Lemma sim_weaken {A} (Q R : A -> A -> Prop) m1 m2 :
  sim Q m1 m2 -> (forall a b, Q a b -> R a b) -> sim R m1 m2.
Proof.
  intros Hm HQ h1 h2 H. destruct (Hm h1 h2 H) as [H1 H2]. split; [done|].
  destruct H2; constructor; auto.
Qed.

Lemma sim_bind {A B} (Q : A -> A -> Prop) (R : B -> B -> Prop) m1 m2 k1 k2 :
  sim Q m1 m2 -> (forall a b, Q a b -> sim R (k1 a) (k2 b)) ->
  sim R (bind m1 k1) (bind m2 k2).
Proof.
  intros Hm Hk h1 h2 H. destruct (Hm h1 h2 H) as [H1 H2].
  unfold bind. destruct (m1 h1) as [h1' r1], (m2 h2) as [h2' r2]; simpl in *.
  inversion H2; subst; [by apply Hk|]. split; [done|constructor].
Qed.

Lemma sim_wrap {A} (R : A -> A -> Prop) msg m1 m2 :
  sim R m1 m2 -> sim R (wrap msg m1) (wrap msg m2).
Proof.
  intros Hm h1 h2 H. destruct (Hm h1 h2 H) as [H1 H2].
  unfold wrap. destruct (m1 h1) as [h1' r1], (m2 h2) as [h2' r2]; simpl in *.
  inversion H2; subst; (split; [done|by constructor]).
Qed.

Lemma sim_drop_err m1 m2 : sim eq m1 m2 -> sim eq (drop_err m1) (drop_err m2).
Proof.
  intros Hm h1 h2 H. destruct (Hm h1 h2 H) as [H1 H2].
  unfold drop_err. destruct (m1 h1) as [h1' r1], (m2 h2) as [h2' r2]; simpl in *.
  inversion H2; subst; (split; [done|by constructor]).
Qed.

Lemma sim_new : sim rloc Ptr.new Ptr.new.
Proof.
  intros h1 h2 (Hn & Hd & Hl). split.
  - repeat split; [simpl; lia|simpl; lia|].
    intros l. rewrite !load_new, Hd.
    replace (next h1 + d)%N with (sh (next h1))
      by (unfold shift; replace (next h1 <? n)%N with false;
          [done | symmetry; apply N.ltb_ge; lia]).
    rewrite shift_eqb. destruct (l =? next h1)%N; auto.
  - simpl. constructor. unfold rloc_on, shift.
    replace (next h1 <? n)%N with false; [lia|]. symmetry. apply N.ltb_ge. lia.
Qed.

Lemma sim_set z1 z2 v :
  rloc z1 z2 -> sim (fun a b => a = z1 /\ b = z2) (Ptr.set z1 v) (Ptr.set z2 v).
Proof.
  intros Hz h1 h2 H. split; [by apply hrel_store|]. by constructor.
Qed.

Lemma sim_binop f z1 z2 x1 x2 y1 y2 :
  rloc z1 z2 -> rloc x1 x2 -> rloc y1 y2 ->
  sim (fun a b => a = z1 /\ b = z2) (Ptr.binop f z1 x1 y1) (Ptr.binop f z2 x2 y2).
Proof.
  intros Hz Hx Hy h1 h2 H. unfold Ptr.binop. simpl.
  rewrite (hrel_load _ _ _ _ H Hz), (hrel_load _ _ _ _ H Hx), (hrel_load _ _ _ _ H Hy).
  split; [by apply hrel_store|]. by constructor.
Qed.

Lemma sim_Copy z1 z2 x1 x2 :
  rloc z1 z2 -> rloc x1 x2 ->
  sim (fun a b => a = z1 /\ b = z2) (Ptr.Copy z1 x1) (Ptr.Copy z2 x2).
Proof.
  intros Hz Hx h1 h2 H. unfold Ptr.Copy. simpl.
  rewrite (hrel_load _ _ _ _ H Hx).
  split; [by apply hrel_store|]. by constructor.
Qed.

Lemma sim_SetPrec z1 z2 p :
  rloc z1 z2 ->
  sim (fun a b => a = z1 /\ b = z2) (Ptr.SetPrec z1 p) (Ptr.SetPrec z2 p).
Proof.
  intros Hz h1 h2 H. unfold Ptr.SetPrec. simpl.
  rewrite (hrel_load _ _ _ _ H Hz).
  split; [by apply hrel_store|]. by constructor.
Qed.

Lemma sim_SetInt z1 z2 i :
  rloc z1 z2 ->
  sim (fun a b => a = z1 /\ b = z2) (Ptr.SetInt z1 i) (Ptr.SetInt z2 i).
Proof.
  intros Hz h1 h2 H. unfold Ptr.SetInt. simpl.
  rewrite (hrel_load _ _ _ _ H Hz).
  split; [by apply hrel_store|]. by constructor.
Qed.

Lemma sim_SetUint64 z1 z2 u :
  rloc z1 z2 ->
  sim (fun a b => a = z1 /\ b = z2) (Ptr.SetUint64 z1 u) (Ptr.SetUint64 z2 u).
Proof.
  intros Hz h1 h2 H. unfold Ptr.SetUint64. simpl.
  rewrite (hrel_load _ _ _ _ H Hz).
  split; [by apply hrel_store|]. by constructor.
Qed.

Lemma sim_Int x1 x2 : rloc x1 x2 -> sim eq (Ptr.Int x1) (Ptr.Int x2).
Proof.
  intros Hx h1 h2 H. unfold Ptr.Int. simpl.
  rewrite (hrel_load _ _ _ _ H Hx). split; [done|by constructor].
Qed.

Lemma sim_Sign x1 x2 : rloc x1 x2 -> sim eq (Ptr.Sign x1) (Ptr.Sign x2).
Proof.
  intros Hx h1 h2 H. unfold Ptr.Sign. simpl.
  rewrite (hrel_load _ _ _ _ H Hx). split; [done|by constructor].
Qed.

Lemma sim_Float64 x1 x2 : rloc x1 x2 -> sim eq (Ptr.Float64 x1) (Ptr.Float64 x2).
Proof.
  intros Hx h1 h2 H. unfold Ptr.Float64. simpl.
  rewrite (hrel_load _ _ _ _ H Hx). split; [done|by constructor].
Qed.

Lemma sim_ptr x1 x2 : sim (fun a b => a = x1 /\ b = x2) (ptr x1) (ptr x2).
Proof. apply sim_ret. Qed.

Lemma sim_call2 f (Rz Rx Ry : loc -> loc -> Prop) mz1 mz2 mx1 mx2 my1 my2 :
  sim Rz mz1 mz2 -> sim Rx mx1 mx2 -> sim Ry my1 my2 ->
  (forall a b, Rz a b -> rloc a b) ->
  (forall a b, Rx a b -> rloc a b) ->
  (forall a b, Ry a b -> rloc a b) ->
  sim rloc (call2 (Ptr.binop f) mz1 mx1 my1) (call2 (Ptr.binop f) mz2 mx2 my2).
Proof.
  intros Hz Hx Hy Fz Fx Fy. unfold call2.
  eapply sim_bind; [exact Hz|]. intros z1 z2 Rz'.
  eapply sim_bind; [exact Hx|]. intros x1 x2 Rx'.
  eapply sim_bind; [exact Hy|]. intros y1 y2 Ry'.
  eapply sim_weaken; [apply sim_binop; auto|].
  intros a b [-> ->]. auto.
Qed.

Lemma sim_NewFloat a b : sim rloc (Ptr.NewFloat a b) (Ptr.NewFloat a b).
Proof.
  unfold Ptr.NewFloat. eapply sim_bind; [apply sim_new|].
  intros z1 z2 Hz. eapply sim_weaken; [by apply sim_set|]. by intros ? ? [-> ->].
Qed.

Lemma rloc_below l : (l < n)%N -> rloc l l.
Proof.
  intros H. unfold rloc_on, shift.
  replace (l <? n)%N with true; [done|]. symmetry. by apply N.ltb_lt.
Qed.

End Sim.

Create HintDb sim.
#[global] Hint Resolve sim_ret sim_fail sim_lift sim_new sim_set sim_binop
  sim_Copy sim_SetPrec sim_SetInt sim_SetUint64 sim_Int sim_Sign sim_Float64
  sim_ptr sim_NewFloat sim_drop_err : sim.
#[global] Hint Extern 1 (rloc_on _ _ _ _) => assumption : sim.

Ltac sim_split :=
  cbv beta in *;
  repeat match goal with H : _ /\ _ |- _ => destruct H end;
  subst.

Ltac sim_post :=
  intros; sim_split;
  first [ solve [auto with sim]
        | match goal with
          | H : rloc_on _ _ ?x ?y |- ?R ?x ?y => is_evar R; exact H
          end
        | match goal with
          | |- ?R ?a ?a =>
              is_evar R; let T := type of a in unify R (@eq T); reflexivity
          end ].

Ltac sim_tac :=
  lazymatch goal with
  | |- sim_on _ _ _ (bind _ _) (bind _ _) =>
      eapply sim_bind; [sim_tac | intros ? ? ?; sim_split; sim_tac]
  | |- sim_on _ _ _ (call2 _ _ _ _) (call2 _ _ _ _) =>
      first [ eapply sim_call2;
                [sim_tac | sim_tac | sim_tac | sim_post | sim_post | sim_post]
            | eapply sim_weaken;
                [eapply sim_call2;
                   [sim_tac | sim_tac | sim_tac | sim_post | sim_post | sim_post]
                | sim_post] ]
  | |- sim_on _ _ _ (wrap _ _) (wrap _ _) => apply sim_wrap; sim_tac
  | |- sim_on _ _ _ (drop_err _) (drop_err _) => apply sim_drop_err; sim_tac
  | |- sim_on _ _ _ (if ?c then _ else _) (if ?c then _ else _) =>
      destruct c; sim_tac
  | |- _ =>
      first [ solve [eauto with sim]
            | eapply sim_weaken; [solve [eauto with sim] | sim_post] ]
  end.

Section SimOfThePackage.
Variables n d : N.
Local Abbreviation sim := (sim_on n d).
Local Abbreviation rloc := (rloc_on n d).
Local Abbreviation ropt := (ropt_on n d).

Lemma sim_check_coord msg x1 x2 :
  rloc x1 x2 -> sim eq (check_coord msg x1) (check_coord msg x2).
Proof. intros Hx. unfold check_coord. sim_tac. Qed.

Lemma sim_check_param msg p1 p2 hi :
  rloc p1 p2 -> sim eq (check_param msg p1 hi) (check_param msg p2 hi).
Proof. intros Hp. unfold check_param. sim_tac. Qed.

Hint Resolve sim_check_coord sim_check_param : sim.

Lemma sim_lorenzStep x1 x2 y1 y2 z1 z2 s1 s2 r1 r2 b1 b2 t1 t2 :
  rloc x1 x2 -> rloc y1 y2 -> rloc z1 z2 ->
  rloc s1 s2 -> rloc r1 r2 -> rloc b1 b2 -> rloc t1 t2 ->
  sim eq (lorenzStep x1 y1 z1 s1 r1 b1 t1) (lorenzStep x2 y2 z2 s2 r2 b2 t2).
Proof. intros. unfold lorenzStep. sim_tac. Qed.

Lemma sim_frac_byte c1 c2 : rloc c1 c2 -> sim eq (frac_byte c1) (frac_byte c2).
Proof. intros. unfold frac_byte. sim_tac. Qed.

Hint Resolve sim_lorenzStep sim_frac_byte : sim.

Lemma sim_discretize f1 f2 : ropt f1 f2 -> sim eq (discretize f1) (discretize f2).
Proof.
  intros H. unfold discretize. destruct f1, f2; simpl in H; try done; sim_tac.
Qed.

Lemma sim_discretizeWithShift f1 f2 shift :
  ropt f1 f2 ->
  sim eq (discretizeWithShift f1 shift) (discretizeWithShift f2 shift).
Proof.
  intros H. unfold discretizeWithShift.
  destruct f1, f2; simpl in H; try done; sim_tac.
Qed.

Lemma ropt_Some l1 l2 : rloc l1 l2 -> ropt (Some l1) (Some l2).
Proof. done. Qed.

Hint Resolve sim_discretize sim_discretizeWithShift ropt_Some : sim.

Lemma sim_shifted_bytes x1 x2 y1 y2 z1 z2 shift :
  rloc x1 x2 -> rloc y1 y2 -> rloc z1 z2 ->
  sim eq (shifted_bytes x1 y1 z1 shift) (shifted_bytes x2 y2 z2 shift).
Proof. intros. unfold shifted_bytes. sim_tac. Qed.

Hint Resolve sim_shifted_bytes : sim.

Lemma sim_warm_up k x1 x2 y1 y2 z1 z2 s1 s2 r1 r2 b1 b2 t1 t2 :
  rloc x1 x2 -> rloc y1 y2 -> rloc z1 z2 ->
  rloc s1 s2 -> rloc r1 r2 -> rloc b1 b2 -> rloc t1 t2 ->
  sim eq (warm_up k x1 y1 z1 s1 r1 b1 t1) (warm_up k x2 y2 z2 s2 r2 b2 t2).
Proof. intros. induction k; simpl; sim_tac. Qed.

Lemma sim_extract_step x1 x2 y1 y2 z1 z2 s1 s2 r1 r2 b1 b2 t1 t2 outSize stream :
  rloc x1 x2 -> rloc y1 y2 -> rloc z1 z2 ->
  rloc s1 s2 -> rloc r1 r2 -> rloc b1 b2 -> rloc t1 t2 ->
  sim eq (extract_step x1 y1 z1 s1 r1 b1 t1 outSize stream)
         (extract_step x2 y2 z2 s2 r2 b2 t2 outSize stream).
Proof. intros. unfold extract_step. sim_tac. Qed.

Hint Resolve sim_warm_up sim_extract_step : sim.

Lemma sim_extract k x1 x2 y1 y2 z1 z2 s1 s2 r1 r2 b1 b2 t1 t2 outSize stream :
  rloc x1 x2 -> rloc y1 y2 -> rloc z1 z2 ->
  rloc s1 s2 -> rloc r1 r2 -> rloc b1 b2 -> rloc t1 t2 ->
  sim eq (extract k x1 y1 z1 s1 r1 b1 t1 outSize stream)
         (extract k x2 y2 z2 s2 r2 b2 t2 outSize stream).
Proof. intros. revert stream. induction k; intros stream; simpl; sim_tac. Qed.

Hint Resolve sim_extract : sim.

Lemma sim_TrajectoryToHashBig x1 x2 y1 y2 z1 z2 s1 s2 r1 r2 b1 b2 t1 t2
    iterations discard outSize :
  ropt x1 x2 -> ropt y1 y2 -> ropt z1 z2 ->
  ropt s1 s2 -> ropt r1 r2 -> ropt b1 b2 -> ropt t1 t2 ->
  sim eq (TrajectoryToHashBig x1 y1 z1 s1 r1 b1 t1 iterations discard outSize)
         (TrajectoryToHashBig x2 y2 z2 s2 r2 b2 t2 iterations discard outSize).
Proof.
  intros Hx Hy Hz Hs Hr Hb Ht. unfold TrajectoryToHashBig.
  destruct x1, x2; simpl in Hx; try done; [|sim_tac].
  destruct y1, y2; simpl in Hy; try done; [|sim_tac].
  destruct z1, z2; simpl in Hz; try done; [|sim_tac].
  destruct s1, s2; simpl in Hs; try done; [|sim_tac].
  destruct r1, r2; simpl in Hr; try done; [|sim_tac].
  destruct b1, b2; simpl in Hb; try done; [|sim_tac].
  destruct t1, t2; simpl in Ht; try done; sim_tac.
Qed.

Lemma sim_seed_mk h denom1 denom2 off :
  rloc denom1 denom2 -> sim rloc (seed_mk h denom1 off) (seed_mk h denom2 off).
Proof. intros. unfold seed_mk. sim_tac. Qed.

Hint Resolve sim_TrajectoryToHashBig sim_seed_mk : sim.

Lemma sim_seedBig data salt :
  sim (rloc3_on n d) (seedBig data salt) (seedBig data salt).
Proof.
  unfold seedBig.
  destruct ((len data =? 0) || (len salt =? 0)); [sim_tac|].
  eapply sim_bind; [sim_tac|]. intros d1 d2 Hd.
  eapply sim_bind; [sim_tac|]. intros ? ? _.
  eapply sim_bind; [sim_tac|]. intros x1 x2 Hx.
  eapply sim_bind; [sim_tac|]. intros y1 y2 Hy.
  eapply sim_bind; [sim_tac|]. intros z1 z2 Hz.
  eapply sim_weaken; [apply sim_ret|]. intros ? ? [-> ->]. done.
Qed.

End SimOfThePackage.

(** ** [compute]: core, frame and determinism *)

Lemma compute_unfold hs env data salt params h :
  compute hs env data salt params h =
  ((compute_core hs data salt h).1,
   map_res (result_of hs env salt params) (compute_core hs data salt h).2).
Proof.
  unfold compute, compute_core, bind.
  destruct (run_stages hs salt (stages_of hs) 0 [] data h) as [h1 [[cps buf]|e]];
    [|done].
  unfold lift, ret.
  destruct (rwrap _ (quantumFinalize buf (Some salt) (hashSize hs))); done.
Qed.

Lemma frame_compute_core n hs data salt :
  frame_below n (fun _ => True) (compute_core hs data salt).
Proof.
  unfold compute_core.
  eapply frame_bind; [apply frame_run_stages|]. intros [cps buf] _. frame_tac.
Qed.

Lemma sim_run_stages n d hs salt sts idx cps buf :
  Forall (stage_below n) sts ->
  sim_on n d eq (run_stages hs salt sts idx cps buf) (run_stages hs salt sts idx cps buf).
Proof.
  intros Hsts. revert idx cps buf.
  induction Hsts as [|st rest (Hs & Hr & Hb & Ht) _ IH]; intros idx cps buf; simpl.
  - sim_tac.
  - destruct (len (StageSalts salt) <=? idx); [sim_tac|].
    eapply sim_bind; [apply sim_wrap, sim_seedBig|].
    intros [[x1 y1] z1] [[x2 y2] z2] (Hx & Hy & Hz). simpl in Hx, Hy, Hz.
    eapply sim_bind.
    + apply sim_wrap, sim_TrajectoryToHashBig; simpl; auto using rloc_below.
    + intros b1 b2 <-. apply IH.
Qed.

Lemma sim_compute_core n d hs data salt :
  hasher_below n hs ->
  sim_on n d eq (compute_core hs data salt) (compute_core hs data salt).
Proof.
  intros H. unfold compute_core.
  eapply sim_bind; [by apply sim_run_stages|].
  intros [cps buf] ? <-. sim_tac.
Qed.

(** A store that kept the cells of [h] corresponds to [h]. *)
Lemma preserved_hrel h h' :
  preserved_below (next h) h h' ->
  hrel (next h) (next h' - next h) h h'.
Proof.
  intros [Hn Hl]. repeat split; [lia|lia|].
  intros l. unfold shift. destruct (l <? next h)%N eqn:E.
  - apply N.ltb_lt in E. by rewrite Hl.
  - apply N.ltb_ge in E. rewrite !load_fresh; [done|lia|done].
Qed.

(** The core of [compute] gives the same outcome on every store that
    kept the stage parameters. *)
Lemma compute_core_again hs data salt h h' :
  hasher_below (next h) hs ->
  preserved_below (next h) h h' ->
  (compute_core hs data salt h').2 = (compute_core hs data salt h).2.
Proof.
  intros Hb Hp.
  destruct (sim_compute_core (next h) (next h' - next h) hs data salt Hb h h'
              (preserved_hrel _ _ Hp)) as [_ Hr].
  inversion Hr; congruence.
Qed.

(** ** [NewHardenedLorenzHasher] allocates the stage parameters *)

Lemma f__run v h h' l :
  f_ v h = (h', Ok l) -> l = next h /\ next h' = N.succ (next h).
Proof.
  unfold f_, Ptr.NewFloat, bind, Ptr.new, Ptr.set, Ptr.SetPrec. simpl.
  intros [= <- <-]. by rewrite !next_store.
Qed.

Lemma stage_lit_below s r b d it id desc h h' st :
  stage_lit s r b d it id desc h = (h', Ok st) ->
  (next h <= next h')%N /\ stage_below (next h') st.
Proof.
  unfold stage_lit. intros H.
  apply bind_Ok in H as (h1 & ls & H1 & H). apply f__run in H1 as [-> N1].
  apply bind_Ok in H as (h2 & lr & H2 & H). apply f__run in H2 as [-> N2].
  apply bind_Ok in H as (h3 & lb & H3 & H). apply f__run in H3 as [-> N3].
  apply bind_Ok in H as (h4 & ld & H4 & H). apply f__run in H4 as [-> N4].
  injection H as <- <-. unfold stage_below. simpl. lia.
Qed.

Lemma stage_below_mono b b' st : (b <= b')%N -> stage_below b st -> stage_below b' st.
Proof. unfold stage_below. lia. Qed.

Lemma sequence_below ms h h' sts :
  Forall (fun m => forall h h' st, m h = (h', Ok st) ->
                   (next h <= next h')%N /\ stage_below (next h') st) ms ->
  sequence ms h = (h', Ok sts) ->
  (next h <= next h')%N /\ Forall (stage_below (next h')) sts.
Proof.
  intros Hms. revert h h' sts.
  induction Hms as [|m ms Hm _ IH]; intros h h' sts; simpl.
  - intros [= <- <-]. split; [lia|constructor].
  - intros H.
    apply bind_Ok in H as (h1 & st & H1 & H). apply Hm in H1 as [N1 B1].
    apply bind_Ok in H as (h2 & rest & H2 & H). apply IH in H2 as [N2 B2].
    injection H as <- <-. split; [lia|].
    constructor; [|done]. eapply stage_below_mono; [|done]. lia.
Qed.

Ltac stage_lits :=
  repeat (constructor;
          [intros ? ? ?; unfold classic, energetic, wide, compact;
           apply stage_lit_below|]);
  constructor.

Lemma stageConfigs_below h h' cfg size :
  stageConfigs h = (h', Ok cfg) ->
  (next h <= next h')%N /\ Forall (stage_below (next h')) (default [] (cfg !! size)).
Proof.
  unfold stageConfigs. intros H.
  apply bind_Ok in H as (h1 & s256 & H1 & H).
  apply sequence_below in H1 as [N1 B1]; [|stage_lits].
  apply bind_Ok in H as (h2 & s384 & H2 & H).
  apply sequence_below in H2 as [N2 B2]; [|stage_lits].
  apply bind_Ok in H as (h3 & s512 & H3 & H).
  apply sequence_below in H3 as [N3 B3]; [|stage_lits].
  apply bind_Ok in H as (h4 & s1024 & H4 & H).
  apply sequence_below in H4 as [N4 B4]; [|stage_lits].
  injection H as <- <-. split; [lia|].
  assert (M1 : forall sts b, (b <= next h4)%N ->
            Forall (stage_below b) sts -> Forall (stage_below (next h4)) sts).
  { intros sts b Hb HF. eapply Forall_impl; [exact HF|].
    intros st. by apply stage_below_mono. }
  destruct (decide (size = Size1024)) as [->|E1];
    [rewrite lookup_insert_eq; simpl; eauto|rewrite lookup_insert_ne by done].
  destruct (decide (size = Size512)) as [->|E2];
    [rewrite lookup_insert_eq; simpl; apply (M1 _ (next h3)); [lia|done]
    |rewrite lookup_insert_ne by done].
  destruct (decide (size = Size384)) as [->|E3];
    [rewrite lookup_insert_eq; simpl; apply (M1 _ (next h2)); [lia|done]
    |rewrite lookup_insert_ne by done].
  destruct (decide (size = Size256)) as [->|E4];
    [rewrite lookup_insert_eq; simpl; apply (M1 _ (next h1)); [lia|done]
    |rewrite lookup_insert_ne by done].
  rewrite lookup_empty. constructor.
Qed.

Lemma check_param_heap msg p hi h : (check_param msg p hi h).1 = h.
Proof.
  unfold check_param, bind, Ptr.Float64. simpl.
  by destruct (in_range _ _).
Qed.

Lemma validate_stages_heap sts h : (validate_stages sts h).1 = h.
Proof.
  induction sts as [|st rest IH]; simpl; [done|].
  unfold bind, validate_stage.
  destruct ((Iterations st <? MinIterations) || (MaxIterations <? Iterations st)); [done|].
  unfold bind.
  repeat match goal with
  | |- context [check_param ?m ?p ?hi ?h0] =>
      let E := fresh in
      pose proof (check_param_heap m p hi h0) as E;
      destruct (check_param m p hi h0) as [? [[]|?]]; simpl in E; subst; [|done]
  end.
  apply IH.
Qed.

(** A hasher that [NewHardenedLorenzHasher] returned has one of the four
    widths, and its stage parameters are cells of the store it was
    built in. *)
Lemma NewHardenedLorenzHasher_Ok w h0 h hs :
  NewHardenedLorenzHasher w h0 = (h, Ok hs) ->
  hashSize hs = w /\
  (w = Size256 \/ w = Size384 \/ w = Size512 \/ w = Size1024) /\
  hasher_below (next h) hs.
Proof.
  unfold NewHardenedLorenzHasher.
  destruct (negb (w =? Size256) && negb (w =? Size384)
            && negb (w =? Size512) && negb (w =? Size1024)) eqn:Hw; [done|].
  intros H.
  apply bind_Ok in H as (h1 & cfg & H1 & H).
  apply (stageConfigs_below _ _ _ w) in H1 as [N1 B1].
  apply bind_Ok in H as (h2 & [] & H2 & H).
  pose proof (f_equal fst H2) as Hv.
  rewrite validate_stages_heap in Hv. simpl in Hv. subst h2.
  injection H as <- <-. simpl. split; [done|]. split.
  - destruct (w =? Size256) eqn:E1; [apply Z.eqb_eq in E1; auto|].
    destruct (w =? Size384) eqn:E2; [apply Z.eqb_eq in E2; auto|].
    destruct (w =? Size512) eqn:E3; [apply Z.eqb_eq in E3; auto|].
    destruct (w =? Size1024) eqn:E4; [apply Z.eqb_eq in E4; auto|].
    discriminate.
  - unfold hasher_below, stages_of. simpl. by rewrite lookup_insert_eq.
Qed.

(** ** Lengths of digests and of mixed blocks *)

Lemma be_bytes_length k x : length (SHA2.be_bytes k x) = k.
Proof. induction k; simpl; congruence. Qed.

Lemma state_bytes_length w st :
  length (SHA2.state_bytes w st) = (8 * SHA2.wbytes w)%nat.
Proof.
  destruct st as [[[[[[[a b] c] e] f] g] i] j]. unfold SHA2.state_bytes.
  rewrite !length_app, !be_bytes_length. lia.
Qed.

Lemma Sum256_length b : length (SHA2.Sum256 b) = 32%nat.
Proof. unfold SHA2.Sum256, SHA2.core256, SHA2.digest. by rewrite state_bytes_length. Qed.



Lemma len_Sum256 b : len (SHA2.Sum256 b) = 32.
Proof. unfold len. by rewrite Sum256_length. Qed.


Lemma for_range_length f l : length (for_range f l) = length l.
Proof. unfold for_range. apply length_imap. Qed.




Lemma compute_Ok hs env data salt params h r :
  (compute hs env data salt params h).2 = Ok r ->
  exists core, (compute_core hs data salt h).2 = Ok core /\
               r = result_of hs env salt params core.
Proof.
  rewrite compute_unfold. simpl.
  destruct ((compute_core hs data salt h).2) as [core|e]; [|done].
  simpl. intros [= <-]. eauto.
Qed.

Lemma HashWithHardening_Ok hs env data h r :
  (HashWithHardening hs env data h).2 = Ok r ->
  data <> [] /\
  exists salt, generateSalt hs env = Ok salt /\
    (compute hs env data salt (deriveAdaptiveParameters data (MasterSalt salt)) h).2
    = Ok r.
Proof.
  unfold HashWithHardening.
  destruct (len data =? 0) eqn:E; [done|].
  intros H. split.
  { intros ->. discriminate. }
  unfold bind, lift in H.
  destruct (generateSalt hs env) as [salt|e]; [|done]. simpl in H. eauto.
Qed.

(** ** The sample run, evaluated *)

Lemma sample_hasher :
  NewHardenedLorenzHasher 256 empty_heap = (heap256, Ok hasher256).
Proof. vm_compute. reflexivity. Qed.


Lemma sample_core :
  (compute_core hasher256 hello salt0 heap256).2
  = Ok (sample_checkpoints, sample_digest).
Proof. vm_cast_no_check (eq_refl (Ok (sample_checkpoints, sample_digest))). Qed.

Lemma sample_compute :
  (compute hasher256 env0 hello salt0 params0 heap256).2 = Ok sample_result.
Proof. rewrite compute_unfold. cbn [snd]. rewrite sample_core. reflexivity. Qed.


(** ** [VerifyHardenedHash] *)

Lemma Verify_run hs env data stored salt h r' :
  Salt stored = Some salt ->
  ResHashSize stored = hashSize hs ->
  (compute hs env data salt (deriveAdaptiveParameters data (MasterSalt salt)) h).2
    = Ok r' ->
  (VerifyHardenedHash hs env data (Some stored) h).2 = Ok (verdict r' stored).
Proof.
  intros Hsalt Hsize Hc. unfold VerifyHardenedHash. rewrite Hsalt, Hsize, Z.eqb_refl.
  cbn [negb]. unfold bind, wrap, verdict.
  destruct (compute _ _ _ _ _ _) as [h1 rr]. cbn [snd] in Hc. subst rr.
  destruct (bytes_Equal _ _); cbn [negb andb]; [|reflexivity].
  destruct (_ =? _)%nat; cbn [negb andb]; [|reflexivity].
  by destruct (checkpoints_agree _ _).
Qed.

Lemma Verify_recompute_Err hs env data stored salt h e :
  Salt stored = Some salt ->
  ResHashSize stored = hashSize hs ->
  (compute hs env data salt (deriveAdaptiveParameters data (MasterSalt salt)) h).2
    = Err e ->
  (VerifyHardenedHash hs env data (Some stored) h).2
    = Err (Wrapf "recomputation failed: %w" e).
Proof.
  intros Hsalt Hsize Hc. unfold VerifyHardenedHash. rewrite Hsalt, Hsize, Z.eqb_refl.
  cbn [negb]. unfold bind, wrap.
  destruct (compute _ _ _ _ _ _) as [h1 rr]. cbn [snd] in Hc. by subst rr.
Qed.

(** A run of [VerifyHardenedHash] that answers has recomputed. *)
Lemma Verify_Ok hs env data stored h b :
  (VerifyHardenedHash hs env data stored h).2 = Ok b ->
  exists st salt r',
    stored = Some st /\ Salt st = Some salt /\ ResHashSize st = hashSize hs /\
    (compute hs env data salt (deriveAdaptiveParameters data (MasterSalt salt)) h).2
      = Ok r' /\
    b = verdict r' st.
Proof.
  intros H. destruct stored as [st|]; [|done].
  destruct (Salt st) as [salt|] eqn:Hsalt;
    [|unfold VerifyHardenedHash in H; by rewrite Hsalt in H].
  destruct (ResHashSize st =? hashSize hs) eqn:Hsize;
    [|unfold VerifyHardenedHash in H; by rewrite Hsalt, Hsize in H].
  apply Z.eqb_eq in Hsize.
  destruct (compute hs env data salt
              (deriveAdaptiveParameters data (MasterSalt salt)) h).2 as [r'|e] eqn:Hc.
  - rewrite (Verify_run _ _ _ _ _ _ _ Hsalt Hsize Hc) in H. injection H as <-.
    eauto 10.
  - by rewrite (Verify_recompute_Err _ _ _ _ _ _ _ Hsalt Hsize Hc) in H.
Qed.

Lemma checkpoints_agree_refl cps : checkpoints_agree cps cps = true.
Proof.
  induction cps as [|cp cps IH]; [done|]. simpl.
  by rewrite bool_decide_eq_true_2.
Qed.

Lemma checkpoints_agree_Forall2 cps cps' :
  length cps = length cps' ->
  checkpoints_agree cps cps' = true <->
  Forall2 (fun c s => CpHash c = CpHash s) cps cps'.
Proof.
  revert cps'. induction cps as [|cp cps IH]; intros [|cp' cps'] Hlen;
    try discriminate Hlen.
  - split; [intros _; constructor|reflexivity].
  - injection Hlen as Hlen. cbn [checkpoints_agree].
    destruct (bool_decide (CpHash cp = CpHash cp')) eqn:E.
    + apply bool_decide_eq_true_1 in E. rewrite (IH _ Hlen).
      split; [by constructor|]. by inversion 1.
    + apply bool_decide_eq_false_1 in E. split; [discriminate|]. by inversion 1.
Qed.

Lemma checkpoints_agree_map cps st st' :
  map CpHash st = map CpHash st' ->
  checkpoints_agree cps st = checkpoints_agree cps st'.
Proof.
  revert st st'. induction cps as [|cp cps IH]; intros [|s st] [|s' st'] E;
    try discriminate E; try reflexivity.
  injection E as E1 E2. cbn [checkpoints_agree]. rewrite E1.
  destruct (bool_decide _); [by apply IH|reflexivity].
Qed.

Lemma verdict_true r' st :
  verdict r' st = true <->
  Hash r' = Hash st /\
  Forall2 (fun c s => CpHash c = CpHash s) (Checkpoints r') (Checkpoints st).
Proof.
  unfold verdict, bytes_Equal. rewrite !andb_true_iff, bool_decide_eq_true.
  split.
  - intros [[H1 H2] H3]. apply Nat.eqb_eq in H2. split; [done|].
    by apply checkpoints_agree_Forall2.
  - intros [H1 H2]. pose proof (Forall2_length _ _ _ H2) as Hl.
    repeat split; [done|by apply Nat.eqb_eq|by apply checkpoints_agree_Forall2].
Qed.

(** A hasher recomputes, from any store that kept its stage parameters,
    what it computed before. *)
Lemma recompute_same w h0 h hs env env' data salt params params' r :
  NewHardenedLorenzHasher w h0 = (h, Ok hs) ->
  (compute hs env data salt params h).2 = Ok r ->
  exists r',
    (compute hs env' data salt params' (compute hs env data salt params h).1).2
      = Ok r' /\
    Hash r' = Hash r /\ Checkpoints r' = Checkpoints r /\
    Salt r = Some salt /\ ResHashSize r = hashSize hs.
Proof.
  intros Hnew Hc.
  apply NewHardenedLorenzHasher_Ok in Hnew as (_ & _ & Hb).
  pose proof (frame_compute (next h) hs env data salt params h (N.le_refl _))
    as [Hp _].
  pose proof (compute_core_again hs data salt _ _ Hb Hp) as Hcore.
  apply compute_Ok in Hc as (core & Hc & ->).
  rewrite Hc in Hcore.
  exists (result_of hs env' salt params' core).
  rewrite (compute_unfold hs env' data salt params'). cbn [snd]. rewrite Hcore. done.
Qed.

(** ** C2: a computed result verifies *)

(** C2. Let a hasher built by [NewHardenedLorenzHasher] compute, for
    [data] and a fixed salt hierarchy [salt], the result [r].  Then
    [VerifyHardenedHash data r], run next (in any outside world),
    recomputes from [salt] a result with the same checkpoints and the
    same final hash, and returns true. *)
Theorem verify_accepts_computed w h0 h hs env env' data salt params r :
  NewHardenedLorenzHasher w h0 = (h, Ok hs) ->
  (compute hs env data salt params h).2 = Ok r ->
  (exists r',
     (compute hs env' data salt (deriveAdaptiveParameters data (MasterSalt salt))
        (compute hs env data salt params h).1).2 = Ok r' /\
     Checkpoints r' = Checkpoints r /\ Hash r' = Hash r) /\
  (VerifyHardenedHash hs env' data (Some r) (compute hs env data salt params h).1).2
    = Ok true.
Proof.
  intros Hnew Hc.
  destruct (recompute_same w h0 h hs env env' data salt params
              (deriveAdaptiveParameters data (MasterSalt salt)) r Hnew Hc)
    as (r' & Hr' & HH & HC & HS & HZ).
  split; [eauto|].
  rewrite (Verify_run _ _ _ _ _ _ _ HS HZ Hr').
  f_equal. apply verdict_true. rewrite HH, HC. split; [done|].
  clear. induction (Checkpoints r); by constructor.
Qed.

Lemma verify_accepts_computed_witness :
  (VerifyHardenedHash hasher256 env0 hello (Some sample_result)
     (compute hasher256 env0 hello salt0 params0 heap256).1).2 = Ok true.
Proof.
  pose proof (verify_accepts_computed 256 empty_heap heap256 hasher256 env0 env0
                hello salt0 params0 sample_result sample_hasher sample_compute)
    as [_ H].
  exact H.
Defined.

(** ** C3: what a true verdict guarantees *)

(** C3, as stated, fails.  The stored sample with the stage index and
    the iteration count of both checkpoints overwritten still verifies:
    [VerifyHardenedHash] returns true although the checkpoints it
    recomputes carry stage indices 0, 1 and iteration counts 2000, 3000
    against the stored 7, 9 and 1, 5. *)
Lemma verify_ignores_stage_and_iteration :
  (VerifyHardenedHash hasher256 env0 hello (Some tampered_result) heap256).2 = Ok true
  /\ (compute hasher256 env0 hello salt0 params0 heap256).2 = Ok sample_result
  /\ ~ Forall2 (fun c s => Stage c = Stage s /\ Iteration c = Iteration s
                           /\ CpHash c = CpHash s)
         (Checkpoints sample_result) (Checkpoints tampered_result).
Proof.
  split; [|split].
  - rewrite (Verify_run hasher256 env0 hello tampered_result salt0 heap256
               sample_result eq_refl eq_refl sample_compute).
    reflexivity.
  - exact sample_compute.
  - intros H. inversion H as [|c s cs ss [Hs _] _]. discriminate Hs.
Qed.

(** C3, amended.  When [VerifyHardenedHash] returns true, the stored
    result and its salt are present, the recomputation from the stored
    salt succeeded, its final hash is the stored final hash, and its
    checkpoints are as many as the stored ones with, position by
    position, the same digest string.  Stage index and iteration count
    of the stored checkpoints are not looked at: two stored results with
    the same salt, width, final hash and checkpoint digest strings, in
    particular a stored result and the same result with the stage
    indices and iteration counts of its checkpoints changed at will,
    get the same outcome, verdict or error, and leave the same store. *)
Theorem verify_true_only_if hs env data h :
  (forall stored,
     (VerifyHardenedHash hs env data stored h).2 = Ok true ->
     exists st salt r',
       stored = Some st /\ Salt st = Some salt /\
       (compute hs env data salt (deriveAdaptiveParameters data (MasterSalt salt)) h).2
         = Ok r' /\
       Hash r' = Hash st /\
       length (Checkpoints r') = length (Checkpoints st) /\
       Forall2 (fun c s => CpHash c = CpHash s) (Checkpoints r') (Checkpoints st)) /\
  (forall st st',
     compared st = compared st' ->
     VerifyHardenedHash hs env data (Some st') h
     = VerifyHardenedHash hs env data (Some st) h).
Proof.
  split.
  - intros stored H.
    apply Verify_Ok in H as (st & salt & r' & -> & Hs & _ & Hc & Hv).
    symmetry in Hv. apply verdict_true in Hv as [HH HF].
    exists st, salt, r'. repeat split; try done. by eapply Forall2_length.
  - intros st st' E. unfold compared in E.
    injection E as ES EW EH EC.
    assert (El : length (Checkpoints st') = length (Checkpoints st)).
    { by rewrite <- (length_map CpHash (Checkpoints st')), <- EC, length_map. }
    unfold VerifyHardenedHash. rewrite <- ES, <- EW, <- EH, El.
    destruct (Salt st) as [salt|]; [|reflexivity].
    destruct (negb (ResHashSize st =? hashSize hs)); [reflexivity|].
    unfold bind, wrap.
    destruct (compute hs env data salt _ h) as [h1 [r'|e]]; [|reflexivity].
    by rewrite (checkpoints_agree_map (Checkpoints r') _ _ EC).
Qed.

Lemma verify_true_only_if_witness :
  (exists st salt r',
     Some tampered_result = Some st /\ Salt st = Some salt /\
     (compute hasher256 env0 hello salt
        (deriveAdaptiveParameters hello (MasterSalt salt)) heap256).2 = Ok r' /\
     Hash r' = Hash st /\
     length (Checkpoints r') = length (Checkpoints st) /\
     Forall2 (fun c s => CpHash c = CpHash s) (Checkpoints r') (Checkpoints st)) /\
  VerifyHardenedHash hasher256 env0 hello (Some tampered_result) heap256
  = VerifyHardenedHash hasher256 env0 hello (Some sample_result) heap256.
Proof.
  pose proof (verify_true_only_if hasher256 env0 hello heap256) as [H1 H2].
  split.
  - apply H1.
    rewrite (Verify_run hasher256 env0 hello tampered_result salt0 heap256
               sample_result eq_refl eq_refl sample_compute).
    reflexivity.
  - apply H2. reflexivity.
Defined.

(** ** C5: the parameter map is metadata *)

(** C5. Two runs of [compute] on the same data and salt hierarchy, from
    the same store, with arbitrary parameter maps [p1] and [p2], leave
    the same store (so the same stage parameters), fail with the same
    error or succeed together, and then return the same final hash and
    the same checkpoints; the map a run was given is returned in the
    field [Parameters] of its result and nowhere else. *)
Theorem parameters_are_metadata hs env data salt p1 p2 h :
  (compute hs env data salt p1 h).1 = (compute hs env data salt p2 h).1 /\
  map_res Hash (compute hs env data salt p1 h).2
    = map_res Hash (compute hs env data salt p2 h).2 /\
  map_res Checkpoints (compute hs env data salt p1 h).2
    = map_res Checkpoints (compute hs env data salt p2 h).2 /\
  (compute hs env data salt p1 h).2
    = map_res (fun r => mkResult (Hash r) (Salt r) (Checkpoints r) (ComputeTime r)
                          (MemoryUsed r) p1 (Algorithm r) (Version r) (ResHashSize r))
        (compute hs env data salt p2 h).2.
Proof.
  rewrite !compute_unfold. cbn [fst snd].
  destruct (compute_core hs data salt h).2 as [[cps final]|e]; done.
Qed.

(** ** C6: errors and verdicts of verification *)

(** C6. [VerifyHardenedHash] returns an error, and changes nothing, when
    the stored result is nil, when its salt is nil, and when its width is
    not the hasher's; once the recomputation from the stored salt has
    succeeded, a stored final hash that differs from the recomputed one,
    a different number of checkpoints, or a checkpoint whose digest
    string differs yields [false] and no error. *)
Theorem verify_errors_and_mismatches hs env data st salt h r' :
  VerifyHardenedHash hs env data None h = (h, Err (Errorf "invalid stored hash")) /\
  (Salt st = None ->
   VerifyHardenedHash hs env data (Some st) h
     = (h, Err (Errorf "invalid stored hash"))) /\
  (Salt st = Some salt -> ResHashSize st <> hashSize hs ->
   VerifyHardenedHash hs env data (Some st) h
     = (h, Err (Errorf "hash size mismatch: expected %d, got %d"))) /\
  (Salt st = Some salt -> ResHashSize st = hashSize hs ->
   (compute hs env data salt (deriveAdaptiveParameters data (MasterSalt salt)) h).2
     = Ok r' ->
   Hash r' <> Hash st
   \/ length (Checkpoints r') <> length (Checkpoints st)
   \/ (exists i c s, Checkpoints r' !! i = Some c /\ Checkpoints st !! i = Some s
                     /\ CpHash c <> CpHash s) ->
   (VerifyHardenedHash hs env data (Some st) h).2 = Ok false).
Proof.
  split; [done|]. split; [|split].
  - intros Hs. unfold VerifyHardenedHash. by rewrite Hs.
  - intros Hs Hz. unfold VerifyHardenedHash. rewrite Hs.
    apply Z.eqb_neq in Hz. by rewrite Hz.
  - intros Hs Hz Hc Hm. rewrite (Verify_run _ _ _ _ _ _ _ Hs Hz Hc). f_equal.
    destruct (verdict r' st) eqn:Hv; [|done]. exfalso.
    apply verdict_true in Hv as [HH HF].
    destruct Hm as [Hm|[Hm|(i & c & s & Hi & Hj & Hne)]].
    + done.
    + apply Hm. by eapply Forall2_length.
    + apply Hne. by eapply (Forall2_lookup_lr _ _ _ _ _ _ HF).
Qed.

Lemma verify_errors_and_mismatches_witness :
  (VerifyHardenedHash hasher256 env0 hello (Some forged_result) heap256).2 = Ok false.
Proof.
  pose proof (verify_errors_and_mismatches hasher256 env0 hello forged_result salt0
                heap256 sample_result) as (_ & _ & _ & H).
  apply H; [reflexivity|reflexivity|exact sample_compute|].
  left. discriminate.
Defined.

(** ** C10: TrajectoryToHashBig leaves its arguments alone *)

(** C10. A call of [TrajectoryToHashBig], whatever its arguments and
    whether it returns bytes or an error, leaves every Float that existed
    before the call with the value and precision it had: so the seeds
    [x0], [y0], [z0] and the parameters [sigma], [rho], [beta], [dt], and
    any other Float of the program.  The same holds for [discretize] and
    [discretizeWithShift] and the coordinate they are given. *)
Theorem TrajectoryToHashBig_frame x0 y0 z0 sigma rho beta dt iterations discard
    outSize f shift h l :
  (l < next h)%N ->
  load (TrajectoryToHashBig x0 y0 z0 sigma rho beta dt
          iterations discard outSize h).1 l = load h l /\
  load (discretize f h).1 l = load h l /\
  load (discretizeWithShift f shift h).1 l = load h l.
Proof.
  intros Hl. repeat split.
  - by apply (frame_TrajectoryToHashBig (next h) x0 y0 z0 sigma rho beta dt
                iterations discard outSize h (N.le_refl _)).
  - by apply (frame_discretize (next h) f h (N.le_refl _)).
  - by apply (frame_discretizeWithShift (next h) f shift h (N.le_refl _)).
Qed.

Lemma TrajectoryToHashBig_frame_witness :
  load (TrajectoryToHashBig (Some 4%N) (Some 5%N) (Some 6%N) (Some 0%N) (Some 1%N)
          (Some 2%N) (Some 3%N) 2000 1064 32 heap256).1 4%N = load heap256 4%N /\
  load (discretize (Some 4%N) heap256).1 4%N = load heap256 4%N /\
  load (discretizeWithShift (Some 4%N) 8 heap256).1 4%N = load heap256 4%N.
Proof.
  pose proof (TrajectoryToHashBig_frame (Some 4%N) (Some 5%N) (Some 6%N) (Some 0%N)
                (Some 1%N) (Some 2%N) (Some 3%N) 2000 1064 32 (Some 4%N) 8
                heap256 4%N) as H.
  apply H. vm_compute. reflexivity.
Defined.

(** ** Bytes *)

Lemma nth_imap (g : nat -> Z -> Z) l i :
  (i < length l)%nat -> nth i (imap g l) 0 = g i (nth i l 0).
Proof.
  revert g i. induction l as [|x l IH]; intros g i Hi; simpl in *.
  - lia.
  - destruct i as [|i]; [done|]. rewrite IH by lia. reflexivity.
Qed.

Lemma nth_for_range f l i :
  (i < length l)%nat -> nth i (for_range f l) 0 = f (Z.of_nat i) (nth i l 0).
Proof. intros Hi. unfold for_range. by rewrite nth_imap. Qed.

Lemma at_nth s i : at_ s (Z.of_nat i) = nth i s 0.
Proof. unfold at_. by rewrite Nat2Z.id. Qed.

Lemma rem_mod a b : 0 <= a -> 0 < b -> Z.rem a b = a mod b.
Proof. intros. apply Z.rem_mod_nonneg; lia. Qed.

Lemma be_bytes_byte k x : Forall is_byte (SHA2.be_bytes k x).
Proof.
  induction k; simpl; constructor; [|done].
  unfold is_byte. change 255 with (Z.ones 8). rewrite Z.land_ones by lia.
  apply Z.mod_pos_bound. lia.
Qed.

Lemma state_bytes_byte w st : Forall is_byte (SHA2.state_bytes w st).
Proof.
  destruct st as [[[[[[[a b] c] e] f] g] i] j]. unfold SHA2.state_bytes.
  repeat (apply Forall_app; split); apply be_bytes_byte.
Qed.

Lemma Sum256_byte b : Forall is_byte (SHA2.Sum256 b).
Proof. apply state_bytes_byte. Qed.

Lemma Sum512_byte b : Forall is_byte (SHA2.Sum512 b).
Proof. apply state_bytes_byte. Qed.

Lemma Sum384_byte b : Forall is_byte (SHA2.Sum384 b).
Proof. unfold SHA2.Sum384. apply Forall_take, state_bytes_byte. Qed.

Lemma sized_sum_byte w b : Forall is_byte (sized_sum w b).
Proof.
  unfold sized_sum.
  repeat (case_match;
          [first [apply Sum256_byte | apply Sum384_byte | apply Sum512_byte
                 | apply Forall_app; split; apply Sum512_byte]|]).
  constructor.
Qed.

Lemma nth_byte l i : Forall is_byte l -> 0 <= nth i l 0 < 256.
Proof.
  intros H. destruct (decide (i < length l)%nat) as [Hi|Hi].
  - eapply (Forall_nth _ 0 l) in H; eauto.
  - rewrite nth_overflow by lia. lia.
Qed.

Lemma lxor_nonneg a b : 0 <= a -> 0 <= b -> 0 <= Z.lxor a b.
Proof. intros. apply Z.lxor_nonneg. lia. Qed.

(** ** C4: round 3 of the finalisation *)

Lemma hyperchaosMix_Ok data salt out :
  hyperchaosMix data salt = Ok out ->
  length out = length data /\
  forall i, (i < length data)%nat ->
    nth i out 0 =
    let key := SHA2.Sum256 salt in
    let k a := nth (Z.to_nat ((Z.of_nat i * a) mod len key)) key 0 in
    Z.rem (Z.lxor (Z.lxor (nth i data 0) (k 7)) (k 13) + k 17) 256.
Proof.
  unfold hyperchaosMix.
  destruct ((len data =? 0) || (len salt =? 0)); [done|].
  intros [= <-]. split; [by rewrite for_range_length, repeat_length|].
  intros i Hi. rewrite nth_for_range by (by rewrite repeat_length).
  cbv zeta. rewrite at_nth, len_Sum256.
  rewrite (rem_mod (Z.of_nat i * 7)), (rem_mod (Z.of_nat i * 13)),
    (rem_mod (Z.of_nat i * 17)) by lia.
  reflexivity.
Qed.

(** C4, as stated, fails: for the one-byte block [0] and the salt "a",
    whose SHA-256 digest starts with the byte 202, round 3 returns 202,
    where three XORs followed by the addition would give 148. *)
Lemma hyperchaosMix_not_as_specified :
  hyperchaosMix [0] [97] = Ok [202] /\
  hyperchaos_as_specified (SHA2.Sum256 [97]) 0 (nth 0 [0] 0) = 148 /\
  nth 0 [202] 0 <> hyperchaos_as_specified (SHA2.Sum256 [97]) 0 (nth 0 [0] 0).
Proof.
  split; [vm_compute; reflexivity|]. split; [vm_compute; reflexivity|].
  vm_compute. discriminate.
Qed.

(** C4, amended.  In a finalisation that succeeds, round 3 takes the
    output [r2] of round 2 and the key [SHA-256(timestampSalt)] and
    returns a block [r3] of the same length in which every byte [i] is
    the byte [i] of [r2] XORed with the two key bytes at strides 7 and 13
    (indices modulo the key length), plus, modulo 256, the key byte at
    stride 17: XOR, XOR, then add. *)
Theorem quantumFinalize_round3 data salt w final :
  quantumFinalize data (Some salt) w = Ok final ->
  exists r2 r3,
    lorenzMix (sized_sum w (data ++ MasterSalt salt)) (MetaSalt salt) = Ok r2 /\
    hyperchaosMix r2 (TimestampSalt salt) = Ok r3 /\
    length r3 = length r2 /\
    forall i, (i < length r2)%nat ->
      nth i r3 0 =
      let key := SHA2.Sum256 (TimestampSalt salt) in
      let k a := nth (Z.to_nat ((Z.of_nat i * a) mod len key)) key 0 in
      (Z.lxor (Z.lxor (nth i r2 0) (k 7)) (k 13) + k 17) mod 256.
Proof.
  unfold quantumFinalize.
  destruct (len data =? 0); [done|].
  destruct (lorenzMix _ _) as [r2|] eqn:E2; [|done]. cbn [rwrap rbind].
  destruct (hyperchaosMix _ _) as [r3|] eqn:E3; [|done]. cbn [rwrap rbind].
  intros _. exists r2, r3. split; [done|]. split; [done|].
  destruct (hyperchaosMix_Ok _ _ _ E3) as [Hl Hb]. split; [done|].
  intros i Hi. rewrite (Hb i Hi). cbv zeta.
  apply rem_mod; [|lia].
  assert (Hr2 : 0 <= nth i r2 0).
  { unfold lorenzMix in E2.
    destruct ((len _ =? 0) || (len _ =? 0)); [done|]. injection E2 as <-.
    rewrite for_range_length, repeat_length in Hi.
    rewrite nth_for_range by (by rewrite repeat_length).
    apply lxor_nonneg.
    - rewrite at_nth. apply nth_byte, sized_sum_byte.
    - apply nth_byte, Sum256_byte. }
  pose proof (fun a => nth_byte (SHA2.Sum256 (TimestampSalt salt)) a
                         (Sum256_byte _)) as Hk.
  pose proof (Hk (Z.to_nat ((Z.of_nat i * 7) `mod` len (SHA2.Sum256 (TimestampSalt salt))))).
  pose proof (Hk (Z.to_nat ((Z.of_nat i * 13) `mod` len (SHA2.Sum256 (TimestampSalt salt))))).
  pose proof (Hk (Z.to_nat ((Z.of_nat i * 17) `mod` len (SHA2.Sum256 (TimestampSalt salt))))).
  pose proof (lxor_nonneg _ _ Hr2 (proj1 H)).
  pose proof (lxor_nonneg _ _ H2 (proj1 H0)). lia.
Qed.

Lemma quantumFinalize_round3_witness :
  exists r2 r3,
    lorenzMix (sized_sum 256 ([1; 2; 3] ++ MasterSalt salt0)) (MetaSalt salt0) = Ok r2 /\
    hyperchaosMix r2 (TimestampSalt salt0) = Ok r3 /\
    length r3 = length r2 /\
    forall i, (i < length r2)%nat ->
      nth i r3 0 =
      let key := SHA2.Sum256 (TimestampSalt salt0) in
      let k a := nth (Z.to_nat ((Z.of_nat i * a) mod len key)) key 0 in
      (Z.lxor (Z.lxor (nth i r2 0) (k 7)) (k 13) + k 17) mod 256.
Proof.
  pose proof (quantumFinalize_round3 [1; 2; 3] salt0 256) as H.
  eapply H. vm_compute. reflexivity.
Defined.

(** ** C8: the XOR fold *)

Lemma mix_round_length s a b hash : length (mix_round s a b hash) = length hash.
Proof. apply for_range_length. Qed.

Lemma nth_mix_round s a b hash i :
  (i < length hash)%nat -> 0 < len s -> 0 <= a -> 0 <= b ->
  nth i (mix_round s a b hash) 0 =
  Z.lxor (nth i hash 0)
    (Z.lxor (nth (Z.to_nat ((Z.of_nat i * a) mod len s)) s 0)
            (nth (Z.to_nat ((Z.of_nat i * b) mod len s)) s 0)).
Proof.
  intros Hi Hs Ha Hb. unfold mix_round. rewrite nth_for_range by done.
  unfold at_. rewrite !rem_mod by lia. reflexivity.
Qed.

Lemma xor_fold_length stream outSize :
  length (xor_fold stream outSize) = Z.to_nat outSize.
Proof.
  unfold xor_fold.
  repeat (case_match; rewrite ?mix_round_length);
    by rewrite ?mix_round_length, for_range_length, repeat_length.
Qed.

Lemma nth_xor_fold stream outSize i :
  0 < len stream -> (i < Z.to_nat outSize)%nat ->
  nth i (xor_fold stream outSize) 0 = fold_byte stream outSize i.
Proof.
  intros Hs Hi. unfold xor_fold, fold_byte.
  assert (H1 : length (for_range
                 (fun i _ => Z.lxor (at_ stream (Z.rem i (len stream)))
                                    (at_ stream (Z.rem (i * 7) (len stream))))
                 (repeat 0 (Z.to_nat outSize))) = Z.to_nat outSize)
    by (by rewrite for_range_length, repeat_length).
  repeat case_match;
    rewrite ?nth_mix_round
      by (rewrite ?mix_round_length, ?H1; first [exact Hi | lia]);
    rewrite nth_for_range by (by rewrite repeat_length);
    unfold at_; rewrite !rem_mod by lia; reflexivity.
Qed.

(** A successful [TrajectoryToHashBig] is the fold of the stream that
    its extraction loop returned. *)
Lemma TrajectoryToHashBig_Ok x0 y0 z0 sigma rho beta dt iterations discard outSize
    h h' out :
  TrajectoryToHashBig x0 y0 z0 sigma rho beta dt iterations discard outSize h
    = (h', Ok out) ->
  exists x y z s r b d h1 stream,
    sigma = Some s /\ rho = Some r /\ beta = Some b /\ dt = Some d /\
    extract (Z.to_nat iterations) x y z s r b d outSize [] h1 = (h', Ok stream) /\
    0 < len stream /\ out = xor_fold stream outSize.
Proof.
  unfold TrajectoryToHashBig.
  destruct x0 as [x0|], y0 as [y0|], z0 as [z0|], sigma as [s|], rho as [r|],
    beta as [b|], dt as [d|]; try done.
  destruct ((iterations <? MinIterations) || (MaxIterations <? iterations)); [done|].
  destruct ((outSize <=? 0) || (128 <? outSize)); [done|].
  intros H.
  apply bind_Ok in H as (h1 & [] & _ & H).
  apply bind_Ok in H as (h2 & [] & _ & H).
  apply bind_Ok in H as (h3 & [] & _ & H).
  apply bind_Ok in H as (h4 & [] & _ & H).
  apply bind_Ok in H as (h5 & x & _ & H).
  apply bind_Ok in H as (h6 & y & _ & H).
  apply bind_Ok in H as (h7 & z & _ & H).
  apply bind_Ok in H as (h8 & [] & _ & H).
  apply bind_Ok in H as (h9 & stream & He & H).
  destruct (len stream =? 0) eqn:E; [done|]. injection H as <- <-.
  exists x, y, z, s, r, b, d, h8, stream. repeat split; try done.
  apply Z.eqb_neq in E. unfold len in *. lia.
Qed.

Lemma sample_trajectory :
  (TrajectoryToHashBig (Some 4%N) (Some 5%N) (Some 6%N) (Some 0%N) (Some 1%N)
     (Some 2%N) (Some 3%N) 1000 0 48 heap256).2 = Ok sample_block.
Proof. vm_cast_no_check (eq_refl (Ok sample_block)). Qed.

(** C8. The block a successful [TrajectoryToHashBig] returns has
    [outSize] bytes and is the fold of the (non-empty) entropy stream its
    extraction loop produced: byte [i] is
    [stream[i mod len] xor stream[(i*7) mod len]] (round 1), XORed with
    [stream[(i*11) mod len]] and [stream[(i*13) mod len]] (round 2), and,
    for [outSize] at least 48, 64 and 128, XORed further with the pairs
    at strides (17, 19), (23, 29) and (31, 37) (rounds 3 to 5). *)
Theorem TrajectoryToHashBig_fold x0 y0 z0 sigma rho beta dt iterations discard
    outSize h out :
  (TrajectoryToHashBig x0 y0 z0 sigma rho beta dt iterations discard outSize h).2
    = Ok out ->
  exists x y z s r b d h1 stream,
    sigma = Some s /\ rho = Some r /\ beta = Some b /\ dt = Some d /\
    (extract (Z.to_nat iterations) x y z s r b d outSize [] h1).2 = Ok stream /\
    stream <> [] /\
    length out = Z.to_nat outSize /\
    forall i, (i < length out)%nat -> nth i out 0 = fold_byte stream outSize i.
Proof.
  intros H.
  destruct (TrajectoryToHashBig x0 y0 z0 sigma rho beta dt iterations discard
              outSize h) as [h' rr] eqn:E.
  cbn [snd] in H. subst rr.
  apply TrajectoryToHashBig_Ok in E
    as (x & y & z & s & r & b & d & h1 & stream & -> & -> & -> & -> & He & Hs & ->).
  exists x, y, z, s, r, b, d, h1, stream. rewrite He.
  repeat split; try done.
  - intros ->. unfold len in Hs. simpl in Hs. lia.
  - apply xor_fold_length.
  - intros i Hi. rewrite xor_fold_length in Hi. by apply nth_xor_fold.
Qed.

Lemma TrajectoryToHashBig_fold_witness :
  exists x y z s r b d h1 stream,
    Some 0%N = Some s /\ Some 1%N = Some r /\ Some 2%N = Some b /\ Some 3%N = Some d /\
    (extract (Z.to_nat 1000) x y z s r b d 48 [] h1).2 = Ok stream /\
    stream <> [] /\
    length sample_block = Z.to_nat 48 /\
    forall i, (i < length sample_block)%nat ->
      nth i sample_block 0 = fold_byte stream 48 i.
Proof.
  pose proof (TrajectoryToHashBig_fold (Some 4%N) (Some 5%N) (Some 6%N) (Some 0%N)
                (Some 1%N) (Some 2%N) (Some 3%N) 1000 0 48 heap256 sample_block
                sample_trajectory) as H.
  exact H.
Defined.


(** ** C7: seed derivation *)

Lemma runs_ret {A} (a : A) h (P : heap -> A -> Prop) : P h a -> runs (ret a) h P.
Proof. intros H. by exists h, a. Qed.

Lemma runs_bind {A B} (m : M A) (k : A -> M B) h (P : heap -> B -> Prop) :
  runs m h (fun h1 a => runs (k a) h1 P) -> runs (bind m k) h P.
Proof.
  intros (h1 & a & Hm & h2 & b & Hk & HP). exists h2, b. split; [|done].
  unfold bind. by rewrite Hm.
Qed.

Lemma runs_new h (P : heap -> loc -> Prop) :
  (forall h', extended h h' -> P h' (next h)) -> runs Ptr.new h P.
Proof.
  intros H. exists (Ptr.new h).1, (next h). split; [done|]. apply H.
  split; [done|]. split.
  - by rewrite load_new, N.eqb_refl.
  - intros l Hl. rewrite load_new. by apply N.eqb_neq in Hl as ->.
Qed.

Lemma updated_store h z v : (z < next h)%N -> updated h z v (store h z v).
Proof.
  intros Hz. apply N.ltb_lt in Hz. split; [apply next_store|]. split.
  - by rewrite load_store, N.eqb_refl, Hz.
  - intros l Hl. rewrite load_store. by apply N.eqb_neq in Hl as ->.
Qed.

Lemma runs_binop f z x y h (P : heap -> loc -> Prop) :
  (z < next h)%N ->
  (forall h', updated h z (f (load h z) (load h x) (load h y)) h' -> P h' z) ->
  runs (Ptr.binop f z x y) h P.
Proof. intros Hz H. eexists _, z. split; [done|]. by apply H, updated_store. Qed.

Lemma runs_set z v h (P : heap -> loc -> Prop) :
  (z < next h)%N -> (forall h', updated h z v h' -> P h' z) -> runs (Ptr.set z v) h P.
Proof. intros Hz H. eexists _, z. split; [done|]. by apply H, updated_store. Qed.

Lemma runs_SetPrec z p h (P : heap -> loc -> Prop) :
  (z < next h)%N ->
  (forall h', updated h z (BigFloat.SetPrec (load h z) p) h' -> P h' z) ->
  runs (Ptr.SetPrec z p) h P.
Proof. intros Hz H. eexists _, z. split; [done|]. by apply H, updated_store. Qed.

Lemma runs_SetInt z i h (P : heap -> loc -> Prop) :
  (z < next h)%N ->
  (forall h', updated h z (BigFloat.SetInt (load h z) i) h' -> P h' z) ->
  runs (Ptr.SetInt z i) h P.
Proof. intros Hz H. eexists _, z. split; [done|]. by apply H, updated_store. Qed.

Lemma runs_SetUint64 z u h (P : heap -> loc -> Prop) :
  (z < next h)%N ->
  (forall h', updated h z (BigFloat.SetUint64 (load h z) u) h' -> P h' z) ->
  runs (Ptr.SetUint64 z u) h P.
Proof. intros Hz H. eexists _, z. split; [done|]. by apply H, updated_store. Qed.

(** One step of a run: the rule of the construct at the head, and the
    facts about the store it leaves, with every [load] from the store
    before rewritten away. *)
Ltac load_back H :=
  repeat match type of H with
  | _ = ?rhs =>
      match rhs with
      | context [load ?h0 ?l] =>
          match goal with
          | E : load h0 l = _ |- _ => rewrite E in H
          | F : forall l', l' <> _ -> load h0 l' = load _ l' |- _ =>
              rewrite (F l) in H by lia
          end
      end
  end.

(** A [load] of the goal traced back through the stores of the run. *)
Ltac load_goal :=
  repeat match goal with
  | |- context [load ?h0 ?l] =>
      match goal with
      | E : load h0 l = _ |- _ => rewrite E
      | F : forall l', l' <> _ -> load h0 l' = load _ l' |- _ =>
          rewrite (F l) by lia
      end
  end.

Ltac run_step :=
  lazymatch goal with
  | |- runs (bind _ _) _ _ => apply runs_bind
  | |- runs (call2 _ _ _ _) _ _ => unfold call2, ptr
  | |- runs (ret _) _ _ => apply runs_ret
  | |- runs (Ptr.NewFloat _ _) _ _ => unfold Ptr.NewFloat
  | |- runs Ptr.new ?h _ =>
      let h' := fresh "h" in let N := fresh "N" in
      let L := fresh "L" in let F := fresh "F" in
      apply runs_new; intros h' (N & L & F)
  | |- runs _ ?h _ =>
      let h' := fresh "h" in let N := fresh "N" in
      let L := fresh "L" in let F := fresh "F" in
      first [ apply runs_binop | apply runs_set | apply runs_SetPrec
            | apply runs_SetInt | apply runs_SetUint64 ];
      [lia | intros h' (N & L & F); load_back L]
  end.

Lemma seed_mk_run hb denom off h :
  (denom < next h)%N -> off + 8 <= len hb ->
  runs (seed_mk hb denom off) h (fun h' f =>
    f = next h /\ next h' = (next h + 3)%N /\
    load h' f = seed_value (seed_word hb off) (load h denom) /\
    forall l, (l < next h)%N -> load h' l = load h l).
Proof.
  intros Hd Hoff. unfold seed_mk.
  replace (len hb <? off + 8) with false by (symmetry; apply Z.ltb_ge; lia).
  repeat run_step.
  split; [done|]. split; [lia|]. split.
  - load_goal. unfold seed_value, seed_word. cbv zeta. reflexivity.
  - intros l Hl. load_goal. reflexivity.
Qed.

Lemma seedBig_run data salt h :
  data <> [] -> salt <> [] ->
  runs (seedBig data salt) h (fun h' xyz =>
    let hb := SHA2.Sum256 (data ++ salt) in
    load h' xyz.1.1 = seed_value (seed_word hb 0) seed_denom /\
    load h' xyz.1.2 = seed_value (seed_word hb 8) seed_denom /\
    load h' xyz.2 = seed_value (seed_word hb 16) seed_denom).
Proof.
  intros Hd Hs. unfold seedBig.
  replace ((len data =? 0) || (len salt =? 0)) with false.
  2:{ symmetry. apply orb_false_iff. unfold len.
      split; apply Z.eqb_neq; [destruct data|destruct salt]; simpl; try done; lia. }
  do 6 run_step.
  pose proof (len_Sum256 (data ++ salt)) as Hlen.
  apply runs_bind.
  destruct (seed_mk_run (SHA2.Sum256 (data ++ salt)) (next h) 0 h2)
    as (hx & x & Ex & -> & Nx & Lx & Fx); [lia|lia|].
  exists hx, (next h2). split; [exact Ex|]. apply runs_bind.
  destruct (seed_mk_run (SHA2.Sum256 (data ++ salt)) (next h) 8 hx)
    as (hy & y & Ey & -> & Ny & Ly & Fy); [lia|lia|].
  exists hy, (next hx). split; [exact Ey|]. apply runs_bind.
  destruct (seed_mk_run (SHA2.Sum256 (data ++ salt)) (next h) 16 hy)
    as (hz & z & Ez & -> & Nz & Lz & Fz); [lia|lia|].
  exists hz, (next hy). split; [exact Ez|]. apply runs_ret. cbn [fst snd].
  assert (Hden : load h2 (next h) = seed_denom) by (unfold seed_denom; exact L1).
  split; [|split].
  - rewrite (Fz (next h2)), (Fy (next h2)), Lx, Hden by lia. reflexivity.
  - rewrite (Fz (next hx)), Ly, (Fx (next h)), Hden by lia. reflexivity.
  - rewrite Lz, (Fy (next h)), (Fx (next h)), Hden by lia. reflexivity.
Qed.

(** *** Exact operations of [big.Float] *)

Lemma bitlen_le_iff m p : 0 <= p -> BigFloat.bitlen m <= p <-> Z.abs m < 2 ^ p.
Proof.
  intros Hp. unfold BigFloat.bitlen. destruct (m =? 0) eqn:E.
  - apply Z.eqb_eq in E. subst. simpl. split; [intros _; apply Z.pow_pos_nonneg; lia|lia].
  - apply Z.eqb_neq in E. rewrite (Z.log2_lt_pow2 (Z.abs m) p) by lia. lia.
Qed.

Lemma bitlen_shift a j :
  a <> 0 -> 0 <= j -> BigFloat.bitlen (a * 2 ^ j) = BigFloat.bitlen a + j.
Proof.
  intros Ha Hj. unfold BigFloat.bitlen.
  assert (H2 : 0 < 2 ^ j) by (apply Z.pow_pos_nonneg; lia).
  replace (a * 2 ^ j =? 0) with false by (symmetry; apply Z.eqb_neq; nia).
  replace (a =? 0) with false by (symmetry; by apply Z.eqb_neq).
  rewrite Z.abs_mul, (Z.abs_eq (2 ^ j)) by lia.
  rewrite Z.log2_mul_pow2 by lia. lia.
Qed.

Lemma rne_shift_exact a k : 0 < k -> BigFloat.rne_shift (a * 2 ^ k) k = a.
Proof.
  intros Hk. unfold BigFloat.rne_shift.
  assert (H2 : 0 < 2 ^ k) by (apply Z.pow_pos_nonneg; lia).
  rewrite Z.abs_mul, (Z.abs_eq (2 ^ k)) by lia.
  rewrite Z.shiftr_div_pow2, Z.div_mul by lia.
  rewrite !Z.shiftl_mul_pow2, Z.sub_diag, Z.mul_1_l by lia.
  assert (H3 : 0 < 2 ^ (k - 1)) by (apply Z.pow_pos_nonneg; lia).
  replace (2 ^ (k - 1) <? 0) with false by (symmetry; apply Z.ltb_ge; lia).
  replace (0 =? 2 ^ (k - 1)) with false by (symmetry; apply Z.eqb_neq; lia).
  cbn [orb andb]. rewrite Z.sgn_mul, (Z.sgn_pos (2 ^ k)), Z.mul_1_r by lia.
  rewrite Z.mul_comm. apply Z.abs_sgn.
Qed.

(** Rounding to [p] bits leaves a value of at most [p] bits as it is. *)
Lemma make_exact p a c j :
  0 < p -> Z.abs a < 2 ^ p -> 0 <= j ->
  prec (BigFloat.make p (a * 2 ^ j, c - j)) = p /\
  dyadic_form (BigFloat.make p (a * 2 ^ j, c - j)) a c.
Proof.
  intros Hp Ha Hj. unfold BigFloat.make, BigFloat.round_to. cbn [fst snd].
  replace (p <=? 0) with false by (symmetry; apply Z.leb_gt; lia).
  unfold BigFloat.round_grid.
  destruct (c - j <? BigFloat.bitlen (a * 2 ^ j) + (c - j) - p) eqn:E.
  - apply Z.ltb_lt in E. cbn [prec]. split; [done|].
    destruct (decide (a = 0)) as [->|Hne].
    { rewrite Z.mul_0_l in E. unfold BigFloat.bitlen in E. simpl in E. lia. }
    rewrite bitlen_shift in * by done.
    apply bitlen_le_iff in Ha; [|lia].
    set (k := BigFloat.bitlen a + j + (c - j) - p - (c - j)) in *.
    exists (j - k). split; [lia|]. cbn [mant expo].
    replace (a * 2 ^ j) with (a * 2 ^ (j - k) * 2 ^ k).
    2:{ rewrite <- Z.mul_assoc, <- Z.pow_add_r by lia. do 2 f_equal. lia. }
    rewrite rne_shift_exact by lia. split; [done|lia].
  - cbn [prec]. split; [done|]. exists j. done.
Qed.

Lemma Mul_exact z x y a c b d :
  prec z = 128 -> dyadic_form x a c -> dyadic_form y b d ->
  Z.abs (a * b) < 2 ^ 128 ->
  prec (BigFloat.Mul z x y) = 128 /\ dyadic_form (BigFloat.Mul z x y) (a * b) (c + d).
Proof.
  intros Hz (j1 & H1 & M1 & E1) (j2 & H2 & M2 & E2) Hab.
  unfold BigFloat.Mul, BigFloat.op_prec, BigFloat.mul_exact. rewrite Hz. cbn [Z.eqb].
  rewrite M1, M2, E1, E2.
  replace (a * 2 ^ j1 * (b * 2 ^ j2)) with (a * b * 2 ^ (j1 + j2))
    by (rewrite Z.pow_add_r by lia; ring).
  replace (c - j1 + (d - j2)) with (c + d - (j1 + j2)) by lia.
  apply make_exact; lia.
Qed.

Lemma Sub_exact z x y a c b d :
  prec z = 128 -> dyadic_form x a c -> dyadic_form y b d ->
  Z.abs (a * 2 ^ (c - Z.min c d) - b * 2 ^ (d - Z.min c d)) < 2 ^ 128 ->
  prec (BigFloat.Sub z x y) = 128 /\
  dyadic_form (BigFloat.Sub z x y)
    (a * 2 ^ (c - Z.min c d) - b * 2 ^ (d - Z.min c d)) (Z.min c d).
Proof.
  intros Hz (j1 & H1 & M1 & E1) (j2 & H2 & M2 & E2) Hab.
  unfold BigFloat.Sub, BigFloat.op_prec, BigFloat.sub_exact, BigFloat.align.
  rewrite Hz. cbn [Z.eqb]. rewrite M1, M2, E1, E2.
  set (g := Z.min c d) in *. set (e := Z.min (c - j1) (d - j2)).
  assert (He : e <= g) by lia.
  rewrite !Z.shiftl_mul_pow2 by lia.
  replace (a * 2 ^ j1 * 2 ^ (c - j1 - e) - b * 2 ^ j2 * 2 ^ (d - j2 - e))
    with ((a * 2 ^ (c - g) - b * 2 ^ (d - g)) * 2 ^ (g - e)).
  2:{ rewrite <- !Z.mul_assoc, <- !Z.pow_add_r by lia.
      rewrite Z.mul_sub_distr_r, <- !Z.mul_assoc, <- !Z.pow_add_r by lia.
      replace (j1 + (c - j1 - e)) with (c - g + (g - e)) by lia.
      replace (j2 + (d - j2 - e)) with (d - g + (g - e)) by lia. reflexivity. }
  replace ((a * 2 ^ (c - g) - b * 2 ^ (d - g)) * 2 ^ (g - e), e)
    with ((a * 2 ^ (c - g) - b * 2 ^ (d - g)) * 2 ^ (g - e), g - (g - e))
    by (f_equal; lia).
  apply make_exact; lia.
Qed.

Lemma Quo_pow2_exact z x a c py :
  prec z = 128 -> dyadic_form x a c -> a <> 0 -> Z.abs a < 2 ^ 128 ->
  prec (BigFloat.Quo z x (mkFloat py (2 ^ 64) 0)) = 128 /\
  dyadic_form (BigFloat.Quo z x (mkFloat py (2 ^ 64) 0)) a (c - 64).
Proof.
  intros Hz (j & Hj & Mx & Ex) Ha Hb.
  unfold BigFloat.Quo, BigFloat.op_prec, BigFloat.quo_sticky. rewrite Hz.
  cbn [Z.eqb mant expo]. rewrite Mx, Ex.
  assert (H2 : 0 < 2 ^ j) by (apply Z.pow_pos_nonneg; lia).
  replace (a * 2 ^ j =? 0) with false by (symmetry; apply Z.eqb_neq; nia).
  change (2 ^ 64 =? 0) with false. cbn [orb].
  rewrite bitlen_shift by lia. change (BigFloat.bitlen (2 ^ 64)) with 65.
  pose proof Hb as Hb'. apply bitlen_le_iff in Hb'; [|lia].
  set (k := Z.max 0 (128 + 2 + 65 - (BigFloat.bitlen a + j))).
  assert (Hk : 64 <= j + k /\ 0 <= k) by (unfold k; lia).
  clearbody k.
  rewrite Z.shiftl_mul_pow2, Z.abs_mul, (Z.abs_eq (2 ^ j)), (Z.abs_eq (2 ^ 64)) by lia.
  replace (Z.abs a * 2 ^ j * 2 ^ k) with (Z.abs a * 2 ^ (j + k - 64) * 2 ^ 64).
  2:{ rewrite <- !Z.mul_assoc, <- !Z.pow_add_r by lia. do 2 f_equal. lia. }
  rewrite Z.mod_mul, Z.div_mul by lia. cbn [Z.eqb].
  rewrite Z.sgn_mul, (Z.sgn_pos (2 ^ j)), (Z.sgn_pos (2 ^ 64)), !Z.mul_1_r, Z.add_0_r
    by lia.
  replace (Z.sgn a * (2 * (Z.abs a * 2 ^ (j + k - 64))))
    with (a * 2 ^ (j + k - 63)).
  2:{ replace (j + k - 63) with (1 + (j + k - 64)) by lia.
      rewrite Z.pow_add_r by lia. change (2 ^ 1) with 2.
      rewrite <- (Z.abs_sgn a) at 1. ring. }
  replace (c - j - 0 - k - 1) with (c - 64 - (j + k - 63)) by lia.
  apply make_exact; lia.
Qed.

Lemma seed_value_form u :
  0 < u < 2 ^ 64 ->
  prec (seed_value u seed_denom) = 128 /\
  dyadic_form (seed_value u seed_denom) (u * 40 - 20 * 2 ^ 64) (-64).
Proof.
  intros Hu. unfold seed_value. cbv zeta.
  assert (H0 : prec (BigFloat.SetUint64 BigFloat.zero u) = 64 /\
               dyadic_form (BigFloat.SetUint64 BigFloat.zero u) u 0).
  { unfold BigFloat.SetUint64. cbn [prec BigFloat.zero Z.eqb].
    replace (u, 0) with (u * 2 ^ 0, 0 - 0) by (f_equal; lia).
    apply make_exact; lia. }
  destruct H0 as [_ (j0 & Hj0 & M0 & E0)].
  set (f0 := BigFloat.SetUint64 BigFloat.zero u) in *.
  assert (H1 : prec (BigFloat.SetPrec f0 128) = 128 /\
               dyadic_form (BigFloat.SetPrec f0 128) u 0).
  { unfold BigFloat.SetPrec. rewrite M0, E0. apply make_exact; lia. }
  destruct H1 as [P1 F1]. set (f1 := BigFloat.SetPrec f0 128) in *.
  change seed_denom with (mkFloat 128 (2 ^ 64) 0).
  destruct (Quo_pow2_exact f1 f1 u 0 128 P1 F1) as [P2 F2]; [lia|lia|].
  set (f2 := BigFloat.Quo f1 f1 _) in *.
  assert (F40 : dyadic_form (F64.lit 40 1) 40 0) by (exists 47; done).
  assert (F20 : dyadic_form (F64.lit 20 1) 20 0) by (exists 48; done).
  destruct (Mul_exact f2 f2 (F64.lit 40 1) u (0 - 64) 40 0 P2 F2 F40) as [P3 F3];
    [lia|].
  set (f3 := BigFloat.Mul f2 f2 _) in *.
  destruct (Sub_exact f3 f3 (F64.lit 20 1) (u * 40) (0 - 64 + 0) 20 0 P3 F3 F20)
    as [P4 F4].
  { change (Z.min (0 - 64 + 0) 0) with (-64). change (0 - 64 + 0 - -64) with 0.
    change (0 - -64) with 64. lia. }
  split; [done|].
  change (Z.min (0 - 64 + 0) 0) with (-64) in F4.
  change (0 - 64 + 0 - -64) with 0 in F4. change (0 - -64) with 64 in F4.
  by rewrite Z.pow_0_r, Z.mul_1_r in F4.
Qed.

Lemma Fval_form x a :
  dyadic_form x a (-64) -> (Fval x == Qmake a 18446744073709551616)%Q.
Proof.
  intros (j & Hj & M & E). unfold Fval. rewrite M, E.
  replace (0 <=? -64 - j) with false by (symmetry; apply Z.leb_gt; lia).
  unfold Qeq. cbn [Qnum Qden].
  assert (H2 : 0 < 2 ^ (- (-64 - j))) by (apply Z.pow_pos_nonneg; lia).
  rewrite Z2Pos.id by done.
  replace (- (-64 - j)) with (64 + j) by lia. rewrite Z.pow_add_r by lia.
  change (Z.pos 18446744073709551616) with (2 ^ 64). ring.
Qed.

(** The seed built from any 64-bit integer is exact and in range. *)
Lemma seed_value_ok u :
  0 <= u < 2 ^ 64 -> seed_of u (seed_value u seed_denom).
Proof.
  intros Hu. unfold seed_of. split; [done|].
  assert (H : prec (seed_value u seed_denom) = 128 /\
              (Fval (seed_value u seed_denom)
               == Qmake (u * 40 - 20 * 2 ^ 64) 18446744073709551616)%Q).
  { destruct (decide (u = 0)) as [->|Hne].
    - split; vm_compute; reflexivity.
    - destruct (seed_value_form u) as [P F]; [lia|]. split; [done|].
      by apply Fval_form. }
  destruct H as [P V]. split; [done|]. rewrite V. clear V P.
  unfold Qeq, Qle, Qlt, Qdiv, Qmult, Qminus, Qplus, Qopp, Qinv, inject_Z.
  cbn [Qnum Qden]. change (2 ^ 64) with 18446744073709551616.
  cbn [Z.mul Pos.mul Qnum Qden]. lia.
Qed.

Lemma lor_lt_pow2 x y m :
  0 < m -> 0 <= x < 2 ^ m -> 0 <= y < 2 ^ m -> 0 <= Z.lor x y < 2 ^ m.
Proof.
  intros Hm Hx Hy.
  assert (H0 : 0 <= Z.lor x y) by (apply Z.lor_nonneg; lia).
  split; [done|].
  destruct (decide (Z.lor x y = 0)) as [->|Hne]; [lia|].
  apply Z.log2_lt_pow2; [lia|]. rewrite Z.log2_lor by lia.
  assert (Hlx : Z.log2 x < m).
  { destruct (decide (x = 0)) as [->|?]; [simpl; lia|]. apply Z.log2_lt_pow2; lia. }
  assert (Hly : Z.log2 y < m).
  { destruct (decide (y = 0)) as [->|?]; [simpl; lia|]. apply Z.log2_lt_pow2; lia. }
  lia.
Qed.

Lemma be_word_acc_bound bs acc m :
  Forall is_byte bs -> 0 <= m -> 0 <= acc < 2 ^ m ->
  0 <= fold_left (fun a b => Z.lor (Z.shiftl a 8) b) bs acc
    < 2 ^ (m + 8 * Z.of_nat (length bs)).
Proof.
  intros Hbs. revert acc m.
  induction Hbs as [|b bs Hb _ IH]; intros acc m Hm Hacc; simpl fold_left.
  - simpl length. by rewrite Z.add_0_r.
  - replace (m + 8 * Z.of_nat (length (b :: bs)))
      with (m + 8 + 8 * Z.of_nat (length bs)) by (simpl length; lia).
    apply IH; [lia|]. unfold is_byte in Hb.
    assert (H8 : 2 ^ (m + 8) = 2 ^ m * 256) by (by rewrite Z.pow_add_r by lia).
    assert (Hp : 0 < 2 ^ m) by (apply Z.pow_pos_nonneg; lia).
    apply lor_lt_pow2; [lia| |nia].
    rewrite Z.shiftl_mul_pow2 by lia. change (2 ^ 8) with 256. nia.
Qed.

Lemma seed_word_bound hb off :
  Forall is_byte hb -> 0 <= seed_word hb off < 2 ^ 64.
Proof.
  intros Hb. unfold seed_word, SHA2.be_word.
  assert (Hw : Forall is_byte (take 8 (drop (Z.to_nat off) hb)))
    by (by apply Forall_take, Forall_drop).
  pose proof (be_word_acc_bound _ 0 0 Hw (Z.le_refl 0) ltac:(simpl; lia)) as H.
  pose proof (length_take_le hb 8) as _.
  assert (Hl : (length (take 8 (drop (Z.to_nat off) hb)) <= 8)%nat)
    by (rewrite length_take; lia).
  split; [lia|]. eapply Z.lt_le_trans; [apply H|].
  apply Z.pow_le_mono_r; lia.
Qed.

(** C7. [seedBig] fails with an error, and allocates nothing, when the
    data or the salt is empty.  For non-empty data and salt it returns
    three Floats of precision 128; each comes from its own 8-byte window
    (offsets 0, 8, 16) of the SHA-256 digest of [data || salt], read as
    a big-endian unsigned 64-bit integer [u], and its value is exactly
    [u / 2^64 * 40 - 20], a number of the half-open interval
    [[-20, 20)]. *)
Theorem seedBig_range data salt h :
  (data = [] \/ salt = [] ->
   seedBig data salt h = (h, Err (Errorf "empty input data"))) /\
  (data <> [] -> salt <> [] ->
   exists h' x y z,
     seedBig data salt h = (h', Ok (x, y, z)) /\
     let hb := SHA2.Sum256 (data ++ salt) in
     seed_of (seed_word hb 0) (load h' x) /\
     seed_of (seed_word hb 8) (load h' y) /\
     seed_of (seed_word hb 16) (load h' z)).
Proof.
  split.
  - intros [->| ->]; unfold seedBig; [done|].
    by rewrite orb_true_r.
  - intros Hd Hs.
    destruct (seedBig_run data salt h Hd Hs) as (h' & [[x y] z] & E & Lx & Ly & Lz).
    exists h', x, y, z. split; [exact E|]. cbv zeta in *. cbn [fst snd] in *.
    rewrite Lx, Ly, Lz.
    repeat split; apply seed_value_ok, seed_word_bound, Sum256_byte.
Qed.

Lemma seedBig_range_witness :
  exists h' x y z,
    seedBig hello (MasterSalt salt0) heap256 = (h', Ok (x, y, z)) /\
    let hb := SHA2.Sum256 (hello ++ MasterSalt salt0) in
    seed_of (seed_word hb 0) (load h' x) /\
    seed_of (seed_word hb 8) (load h' y) /\
    seed_of (seed_word hb 16) (load h' z).
Proof.
  pose proof (seedBig_range hello (MasterSalt salt0) heap256) as [_ H].
  apply H; discriminate.
Defined.

(** ** The pipeline fails only in a trajectory *)
















(** ** The run on "hello2" at width 384 *)


Lemma hello2_salt : generateSalt hasher384 env0 = Ok salt384.
Proof. vm_compute. reflexivity. Qed.

Lemma hello2_core :
  (compute_core hasher384 hello2 salt384 heap384).2 = Err warm_up_overflow.
Proof. vm_cast_no_check (eq_refl (@Err (list TrajectoryCheckpoint * list Z) warm_up_overflow)). Qed.

Lemma hello2_compute :
  (compute hasher384 env0 hello2 salt384 params384 heap384).2 = Err warm_up_overflow.
Proof. rewrite compute_unfold. cbn [snd]. rewrite hello2_core. reflexivity. Qed.

Lemma hello2_hash :
  (HashWithHardening hasher384 env0 hello2 heap384).2 = Err warm_up_overflow.
Proof.
  unfold HashWithHardening. change (len hello2 =? 0) with false. cbv iota.
  unfold bind at 1. unfold lift. rewrite hello2_salt. simpl rwrap. cbv iota beta.
  fold params384. exact hello2_compute.
Qed.

(** ** C1: length of the final digest *)




(** ** C9: the floor on the compute time *)

Lemma NewHardenedLorenzHasher_minComputeTime w h0 h hs :
  NewHardenedLorenzHasher w h0 = (h, Ok hs) -> minComputeTime hs = 100000000.
Proof.
  unfold NewHardenedLorenzHasher.
  destruct (negb (w =? Size256) && negb (w =? Size384)
            && negb (w =? Size512) && negb (w =? Size1024)); [done|].
  intros H.
  apply bind_Ok in H as (h1 & cfg & H1 & H).
  apply bind_Ok in H as (h2 & [] & H2 & H).
  injection H as _ <-. reflexivity.
Qed.

Lemma compute_time_cases hs env :
  0 <= oversleep_ns env -> 0 <= tail_ns env ->
  minComputeTime hs <= compute_time hs env /\
  (work_ns env < minComputeTime hs ->
   compute_time hs env = minComputeTime hs + oversleep_ns env + tail_ns env) /\
  (minComputeTime hs <= work_ns env ->
   compute_time hs env = work_ns env + tail_ns env).
Proof.
  intros Ho Ht. unfold compute_time, time_Since, time_Sleep.
  replace (clock_ns env + work_ns env - clock_ns env) with (work_ns env) by lia.
  destruct (work_ns env <? minComputeTime hs) eqn:E.
  - apply Z.ltb_lt in E.
    destruct (minComputeTime hs - work_ns env <=? 0) eqn:E'.
    { apply Z.leb_le in E'. lia. }
    lia.
  - apply Z.ltb_ge in E. lia.
Qed.

(** C9, as stated, fails: a return with an error comes before the wait.
    In a world where the work of [compute] takes 20 ms, the run of
    [HashWithHardening] on "hello2" at width 384 returns the error of
    its third stage after those 20 ms, against a floor of 100 ms. *)
Lemma compute_error_is_not_delayed :
  (HashWithHardening hasher384 env0 hello2 heap384).2 = Err warm_up_overflow /\
  generateSalt hasher384 env0 = Ok salt384 /\
  (compute hasher384 env0 hello2 salt384 params384 heap384).2 = Err warm_up_overflow /\
  compute_elapsed hasher384 env0 hello2 salt384 params384 heap384 = 20000000 /\
  minComputeTime hasher384 = 100000000.
Proof.
  split; [exact hello2_hash|]. split; [exact hello2_salt|].
  split; [exact hello2_compute|]. split; [|reflexivity].
  unfold compute_elapsed. rewrite hello2_compute. reflexivity.
Qed.

(** C9, amended.  With a clock that does not run backwards and a
    [time.Sleep] that lasts at least as long as asked ([oversleep_ns] and
    [tail_ns] not negative), every result [compute] returns, for any
    data and salt, took at least [minComputeTime] from the entry of
    [compute] to its last reading of the clock, which is what
    [ComputeTime] reports: when the stage loop and the finalisation took
    less than the floor, [compute] sleeps for the difference, and
    otherwise it does not wait.  So does every result
    [HashWithHardening] returns, and a hasher built by
    [NewHardenedLorenzHasher] has a floor of 100 ms.  (A return with an
    error is not delayed.) *)
Theorem compute_time_floor hs env :
  0 <= oversleep_ns env -> 0 <= tail_ns env ->
  (forall data salt params h r,
     (compute hs env data salt params h).2 = Ok r ->
     minComputeTime hs <= ComputeTime r /\
     compute_elapsed hs env data salt params h = ComputeTime r /\
     (work_ns env < minComputeTime hs ->
      ComputeTime r = minComputeTime hs + oversleep_ns env + tail_ns env) /\
     (minComputeTime hs <= work_ns env ->
      ComputeTime r = work_ns env + tail_ns env)) /\
  (forall data h r,
     (HashWithHardening hs env data h).2 = Ok r ->
     minComputeTime hs <= ComputeTime r) /\
  (forall w h0 h,
     NewHardenedLorenzHasher w h0 = (h, Ok hs) -> minComputeTime hs = 100000000).
Proof.
  intros Ho Ht.
  pose proof (compute_time_cases hs env Ho Ht) as (Hfloor & Hslept & Hnot).
  split; [|split].
  - intros data salt params h r Hr.
    assert (Et : ComputeTime r = compute_time hs env).
    { apply compute_Ok in Hr as (core & _ & ->). reflexivity. }
    unfold compute_elapsed. rewrite Hr, Et. auto.
  - intros data h r Hr.
    apply HashWithHardening_Ok in Hr as (_ & salt & _ & Hc).
    apply compute_Ok in Hc as (core & _ & ->). exact Hfloor.
  - intros w h0 h. apply NewHardenedLorenzHasher_minComputeTime.
Qed.

Lemma compute_time_floor_witness :
  (compute hasher256 env0 hello salt0 params0 heap256).2 = Ok sample_result /\
  minComputeTime hasher256 <= ComputeTime sample_result /\
  ComputeTime sample_result = 100060000.
Proof.
  pose proof (compute_time_floor hasher256 env0) as H.
  destruct H as (H & _ & _); [vm_compute; discriminate|vm_compute; discriminate|].
  split; [exact sample_compute|].
  destruct (H hello salt0 params0 heap256 sample_result sample_compute) as (Hf & _).
  split; [exact Hf|reflexivity].
Defined.
